(** * Routing on a projected OSM street graph (osmnx_L7_routing.py)

    Shallow embedding of the pipeline of [src/source/codes/L7/osmnx_L7_routing.py]:
    - the projected street graph (a networkx [MultiDiGraph]);
    - [ox.get_nearest_node(graph_proj, point, method='euclidean')] (lines 150-153);
    - [nx.shortest_path(G, source, target, weight='distance')] (line 168), i.e.
      networkx's [dijkstra_path] -> [single_source_dijkstra] ->
      [_dijkstra_multisource] with the multigraph weight function
      [lambda u, v, d: min(attr.get(weight, 1) for attr in d.values())];
    - the route reconstruction of lines 189-205 ([route_nodes], [route_line],
      [route_geom]).

    Numeric attributes (edge weights, node ids) are [nat]; projected
    coordinates are [Z]; geometric lengths are real numbers. *)

From Stdlib Require Import String Ascii.
From Stdlib Require Import List Arith Lia Bool ZArith Permutation.
From Stdlib Require Import Reals Lra.
Import ListNotations.

Local Open Scope nat_scope.

(** ** Association lists (Python dicts keyed by node id) *)

Fixpoint lookup {A : Type} (k : nat) (l : list (nat * A)) : option A :=
  match l with
  | [] => None
  | (k', a) :: t => if k =? k' then Some a else lookup k t
  end.

Fixpoint nodupb (l : list nat) : bool :=
  match l with
  | [] => true
  | a :: t => negb (existsb (Nat.eqb a) t) && nodupb t
  end.

(** ** The graph *)

(** Attribute dictionary of one edge: attribute name -> numeric value. *)
Definition attrs := list (string * nat).

(** [d.get(key, default)] *)
Fixpoint attr_get (key : string) (d : attrs) (default : nat) : nat :=
  match d with
  | [] => default
  | (k', v) :: t => if String.eqb key k' then v else attr_get key t default
  end.

(** The parallel edges [G._succ[u][v]] between an ordered node pair: the
    dict [edge key -> attrs], non-empty in a networkx multigraph (the entry
    of [v] disappears with the last edge). Only the attribute dicts matter. *)
Definition edge_group := (attrs * list attrs)%type.

(** A node of the graph: its id, its [x]/[y] attributes, its [osmid]
    attribute and its successor dict [G._succ[nid]] in insertion order. *)
Record node := mk_node {
  nid : nat;
  x : Z;
  y : Z;
  osmid : nat;
  succ : list (nat * edge_group)
}.

(** A graph: the node dict in insertion order. *)
Definition graph := list node.

Definition has_node (g : graph) (v : nat) : bool :=
  existsb (fun n => nid n =? v) g.

Definition find_node (g : graph) (v : nat) : option node :=
  find (fun n => nid n =? v) g.

(** [G._succ[v]] ([v] is always a node: the source is checked, every other
    node reached is a neighbour, see [wf_graph]). *)
Definition succ_of (g : graph) (v : nat) : list (nat * edge_group) :=
  match find_node g v with Some n => succ n | None => [] end.

(** Well-formedness of a networkx graph: the successor dict of a node has
    distinct keys, and every neighbour is a node of the graph. *)
Definition wf_graphb (g : graph) : bool :=
  forallb (fun n => nodupb (map fst (succ n))
                    && forallb (fun e => has_node g (fst e)) (succ n)) g.

(** ** networkx's weight function for multigraphs

    [_weight_function(G, 'distance')] is
    [lambda u, v, d: min(attr.get(weight, 1) for attr in d.values())]. *)
Definition weight_fn (key : string) (grp : edge_group) : nat :=
  fold_left (fun m d => Nat.min m (attr_get key d 1)) (snd grp)
            (attr_get key (fst grp) 1).

(** Cost of the edge [a -> b] read the way the search reads it. *)
Definition edge_cost (g : graph) (key : string) (a b : nat) : option nat :=
  option_map (weight_fn key) (lookup b (succ_of g a)).

(** Cumulative weight of a node sequence, [None] when two consecutive
    nodes are not joined by an edge. *)
Fixpoint path_weight (g : graph) (key : string) (p : list nat) : option nat :=
  match p with
  | a :: ((b :: _) as t) =>
      match edge_cost g key a b, path_weight g key t with
      | Some c, Some w => Some (c + w)
      | _, _ => None
      end
  | _ => Some 0
  end.

Fixpoint last_error (p : list nat) : option nat :=
  match p with
  | [] => None
  | [a] => Some a
  | _ :: t => last_error t
  end.

(** [p] is a path of [g] from [s] to [t] of cumulative weight [w]. *)
Definition is_path (g : graph) (key : string) (s t : nat) (p : list nat) (w : nat) : Prop :=
  hd_error p = Some s /\ last_error p = Some t /\ path_weight g key p = Some w.

(** ** networkx's Dijkstra search *)

Inductive nx_error :=
  | NodeNotFound          (* nx.NodeNotFound: source not in G *)
  | NetworkXNoPath        (* nx.NetworkXNoPath: "No path to target" *)
  | ContradictoryPaths    (* ValueError('Contradictory paths found:', 'negative weights?') *)
  | PyKeyError            (* KeyError on paths[v] *)
  | FuelExhausted.        (* the loop bound of the embedding ran out *)

Inductive result (A : Type) :=
  | Ok (a : A)
  | Err (e : nx_error).
Arguments Ok {A} a.
Arguments Err {A} e.

(** Heap entries [(dist, count, node)]; [heapq] pops the least one in the
    lexicographic order of the tuples (the counts are pairwise distinct). *)
Definition entry := (nat * nat * nat)%type.

Definition entry_le (a b : entry) : bool :=
  let '(d1, c1, _) := a in
  let '(d2, c2, _) := b in
  (d1 <? d2) || ((d1 =? d2) && (c1 <=? c2)).

(** [heappop]: the heap as the multiset of its entries. *)
Fixpoint heap_pop (h : list entry) : option (entry * list entry) :=
  match h with
  | [] => None
  | e :: t =>
      match heap_pop t with
      | None => Some (e, [])
      | Some (m, r) => if entry_le e m then Some (e, t) else Some (m, e :: r)
      end
  end.

(** The local variables of [_dijkstra_multisource]. *)
Record dstate := mk_dstate {
  dist : list (nat * nat);
  seen : list (nat * nat);
  fringe : list entry;
  cnt : nat;
  paths : list (nat * list nat)
}.

Definition set_fringe (f : list entry) (st : dstate) : dstate :=
  mk_dstate (dist st) (seen st) f (cnt st) (paths st).

Definition settle (v d : nat) (st : dstate) : dstate :=
  mk_dstate ((v, d) :: dist st) (seen st) (fringe st) (cnt st) (paths st).

(** [seen[u] = vu_dist; push(fringe, (vu_dist, next(c), u));
    paths[u] = paths[v] + [u]] *)
Definition push_node (u vu_dist : nat) (pv : list nat) (st : dstate) : dstate :=
  mk_dstate (dist st) ((u, vu_dist) :: seen st)
            ((vu_dist, cnt st, u) :: fringe st) (S (cnt st))
            ((u, pv ++ [u]) :: paths st).

(** The loop [for u, e in G_succ[v].items(): ...] with [dist[v] = dv] and
    [paths[v] = pv]. *)
Fixpoint relax (key : string) (dv : nat) (pv : list nat)
         (es : list (nat * edge_group)) (st : dstate) : result dstate :=
  match es with
  | [] => Ok st
  | (u, grp) :: es' =>
      let vu_dist := dv + weight_fn key grp in
      match lookup u (dist st) with
      | Some u_dist =>
          if vu_dist <? u_dist then Err ContradictoryPaths
          else relax key dv pv es' st
      | None =>
          match lookup u (seen st) with
          | Some su =>
              if vu_dist <? su then relax key dv pv es' (push_node u vu_dist pv st)
              else relax key dv pv es' st
          | None => relax key dv pv es' (push_node u vu_dist pv st)
          end
      end
  end.

(** The [while fringe:] loop, bounded by [fuel]. *)
Fixpoint dijkstra_loop (g : graph) (key : string) (target : nat)
         (fuel : nat) (st : dstate) : result dstate :=
  match fuel with
  | O => Err FuelExhausted
  | S fuel' =>
      match heap_pop (fringe st) with
      | None => Ok st
      | Some ((d, _, v), rest) =>
          let st0 := set_fringe rest st in
          match lookup v (dist st0) with
          | Some _ => dijkstra_loop g key target fuel' st0
          | None =>
              let st1 := settle v d st0 in
              if v =? target then Ok st1
              else match lookup v (paths st1) with
                   | None => Err PyKeyError
                   | Some pv =>
                       match relax key d pv (succ_of g v) st1 with
                       | Ok st2 => dijkstra_loop g key target fuel' st2
                       | Err e => Err e
                       end
                   end
          end
      end
  end.

(** Each iteration pops one entry; at most one entry is pushed per edge. *)
Definition total_succ (g : graph) : nat :=
  fold_right (fun n acc => length (succ n) + acc) 0 g.

Definition loop_fuel (g : graph) : nat := 2 + total_succ g.

(** [paths = {source: [source]}], [seen[source] = 0],
    [push(fringe, (0, next(c), source))]. *)
Definition init_state (s : nat) : dstate :=
  mk_dstate [] [(s, 0)] [(0, 0, s)] 1 [(s, [s])].

(** [single_source_dijkstra(G, source, target, weight)]. *)
Definition single_source_dijkstra (g : graph) (s t : nat) (key : string)
  : result (nat * list nat) :=
  if s =? t then Ok (0, [t])
  else if negb (has_node g s) then Err NodeNotFound
  else match dijkstra_loop g key t (loop_fuel g) (init_state s) with
       | Err e => Err e
       | Ok st =>
           match lookup t (dist st), lookup t (paths st) with
           | Some d, Some p => Ok (d, p)
           | _, _ => Err NetworkXNoPath
           end
       end.

(** [nx.shortest_path(G=graph, source=s, target=t, weight=key)]
    ([dijkstra_path]: the path component). *)
Definition shortest_path (g : graph) (s t : nat) (key : string) : result (list nat) :=
  match single_source_dijkstra g s t key with
  | Ok (_, p) => Ok p
  | Err e => Err e
  end.

(** ** [ox.get_nearest_node(G, point, method='euclidean')]

    [point] is [(y, x)]. osmnx computes
    [((x1 - x2) ** 2 + (y1 - y2) ** 2) ** 0.5] for every node in node order
    and returns [distances.idxmin()], the first node of least distance.
    The square root is strictly increasing on non-negative numbers, so the
    least entries are those of least squared distance, compared here. *)
Definition sq_dist (px py : Z) (n : node) : Z :=
  ((px - x n) ^ 2 + (py - y n) ^ 2)%Z.

(** [idxmin]: first index of the least value. *)
Fixpoint idxmin (best : nat * Z) (l : list (nat * Z)) : nat :=
  match l with
  | [] => fst best
  | (i, d) :: t => if (d <? snd best)%Z then idxmin (i, d) t else idxmin best t
  end.

Definition get_nearest_node (g : graph) (point : Z * Z) : option nat :=
  let '(py, px) := point in
  match map (fun n => (nid n, sq_dist px py n)) g with
  | [] => None
  | (i, d) :: t => Some (idxmin (i, d) t)
  end.

(** ** The script's choice of the target point (lines 133-153) *)

Definition coord (n : node) : Z * Z := (x n, y n).

(** [maxx = nodes_proj['x'].max()] *)
Definition maxx (g : graph) : option Z :=
  match g with
  | [] => None
  | n :: t => Some (fold_left (fun m n' => Z.max m (x n')) t (x n))
  end.

(** [target_loc = nodes_proj.loc[nodes_proj['x'] == maxx, :]] *)
Definition target_loc (g : graph) : list node :=
  match maxx g with
  | Some m => filter (fun n => (x n =? m)%Z) g
  | None => []
  end.

(** [target_point = target_loc.geometry.values[0]] *)
Definition target_point (g : graph) : option (Z * Z) :=
  match target_loc g with
  | n :: _ => Some (coord n)
  | [] => None
  end.

(** [target_xy = (target_point.y, target_point.x)];
    [target_node = ox.get_nearest_node(graph_proj, target_xy, method='euclidean')] *)
Definition target_node (g : graph) : option nat :=
  match target_point g with
  | Some (px, py) => get_nearest_node g (py, px)
  | None => None
  end.

(** ** Route reconstruction (lines 189-205) *)

(** [route_nodes = nodes_proj.loc[route]] (a [KeyError] gives [None]). *)
Fixpoint nodes_loc (g : graph) (r : list nat) : option (list node) :=
  match r with
  | [] => Some []
  | v :: r' =>
      match find_node g v, nodes_loc g r' with
      | Some n, Some ns => Some (n :: ns)
      | _, _ => None
      end
  end.

(** shapely's [LineString(points)]: a single coordinate is refused
    ([ValueError]); no coordinate gives the empty line. *)
Definition LineString (pts : list (Z * Z)) : option (list (Z * Z)) :=
  match pts with
  | [_] => None
  | _ => Some pts
  end.

(** [route_line = LineString(list(route_nodes.geometry.values))] *)
Definition route_line (g : graph) (r : list nat) : option (list (Z * Z)) :=
  match nodes_loc g r with
  | Some ns => LineString (map coord ns)
  | None => None
  end.

(** Length of a segment and of a line string (shapely's [.length]). *)
Definition seg_length (p q : Z * Z) : R :=
  sqrt (IZR (fst q - fst p) ^ 2 + IZR (snd q - snd p) ^ 2).

Fixpoint line_length (pts : list (Z * Z)) : R :=
  match pts with
  | p :: ((q :: _) as t) => (seg_length p q + line_length t)%R
  | _ => 0%R
  end.

(** Python's [str] of a non-negative integer: its decimal digits. *)
Fixpoint digits (fuel n : nat) (acc : string) : string :=
  match fuel with
  | O => acc
  | S f =>
      let acc' := String (ascii_of_nat (48 + n mod 10)) acc in
      if n <? 10 then acc' else digits f (n / 10) acc'
  end.

Definition string_of_nat (n : nat) : string := digits (S n) n EmptyString.

(** Python's [repr] of a string of digits: the digits in single quotes. *)
Definition py_repr_str (str : string) : string := ("'" ++ str ++ "'")%string.

(** osmnx's [graph_to_gdfs] turns the [osmid] column into strings
    ([.astype(np.int64).map(make_str)]), so [str(list(route_nodes['osmid'].values))]
    is Python's [str] of a list of strings: ["['1', '2', '3']"]. *)
Definition py_str_list (l : list nat) : string :=
  ("[" ++ String.concat ", " (map (fun n => py_repr_str (string_of_nat n)) l) ++ "]")%string.

(** The single row of [route_geom]. *)
Record route_geom := mk_route_geom {
  geometry : list (Z * Z);
  osmids : string;
  length_m : R
}.

(** [route_geom.loc[0, 'geometry'] = route_line];
    [route_geom.loc[0, 'osmids'] = str(list(route_nodes['osmid'].values))];
    [route_geom['length_m'] = route_geom.length]. *)
Definition build_route (g : graph) (r : list nat) : option route_geom :=
  match nodes_loc g r with
  | None => None
  | Some ns =>
      match LineString (map coord ns) with
      | None => None
      | Some line =>
          Some (mk_route_geom line (py_str_list (map osmid ns)) (line_length line))
      end
  end.

(** * Proofs *)

(** ** Association lists and paths *)

Lemma lookup_In {A : Type} (k : nat) (a : A) (l : list (nat * A)) :
  lookup k l = Some a -> In (k, a) l.
Proof.
  induction l as [|[k' b] t IH]; simpl; [discriminate|].
  destruct (Nat.eqb_spec k k'); intros H.
  - inversion H; subst; left; reflexivity.
  - right; auto.
Qed.

Lemma lookup_NoDup {A : Type} (k : nat) (a : A) (l : list (nat * A)) :
  NoDup (map fst l) -> In (k, a) l -> lookup k l = Some a.
Proof.
  induction l as [|[k' b] t IH]; simpl; [contradiction|].
  intros Hnd Hin; inversion Hnd as [|? ? Hnot Hnd']; subst.
  destruct (Nat.eqb_spec k k') as [->|Hne].
  - destruct Hin as [Heq|Hin]; [inversion Heq; reflexivity|].
    exfalso; apply Hnot; change k' with (fst (k', a)); apply in_map; exact Hin.
  - destruct Hin as [Heq|Hin]; [inversion Heq; congruence|auto].
Qed.

Lemma nodupb_NoDup (l : list nat) : nodupb l = true -> NoDup l.
Proof.
  induction l as [|a t IH]; simpl; intros H; [constructor|].
  apply andb_true_iff in H as [H1 H2].
  constructor; [|auto].
  intros Hin; apply negb_true_iff in H1.
  assert (existsb (Nat.eqb a) t = true) by (apply existsb_exists; exists a; split; [exact Hin|apply Nat.eqb_refl]).
  congruence.
Qed.

Lemma find_node_In (g : graph) (v : nat) (n : node) :
  find_node g v = Some n -> In n g /\ nid n = v.
Proof.
  unfold find_node; intros H.
  pose proof (find_some _ _ H) as [Hin Heq].
  split; [exact Hin|apply Nat.eqb_eq; exact Heq].
Qed.

Lemma has_node_find (g : graph) (v : nat) :
  has_node g v = true <-> exists n, find_node g v = Some n.
Proof.
  unfold has_node, find_node; induction g as [|n t IH]; simpl.
  - split; [discriminate|intros [? H]; discriminate].
  - destruct (nid n =? v); simpl.
    + split; [intros _; eauto|reflexivity].
    + exact IH.
Qed.

Lemma succ_of_nonempty_has_node (g : graph) (v : nat) :
  succ_of g v <> [] -> has_node g v = true.
Proof.
  unfold succ_of; destruct (find_node g v) eqn:E; [|congruence].
  intros _; apply has_node_find; eauto.
Qed.

(** The two conditions of [wf_graphb] at a node. *)
Lemma wf_succ_NoDup (g : graph) (v : nat) :
  wf_graphb g = true -> NoDup (map fst (succ_of g v)).
Proof.
  unfold succ_of; intros Hwf.
  destruct (find_node g v) as [n|] eqn:E; [|constructor].
  apply find_node_In in E as [Hin _].
  unfold wf_graphb in Hwf; rewrite forallb_forall in Hwf.
  specialize (Hwf n Hin); apply andb_true_iff in Hwf as [H1 _].
  apply nodupb_NoDup; exact H1.
Qed.

Lemma wf_succ_has_node (g : graph) (v u : nat) (grp : edge_group) :
  wf_graphb g = true -> In (u, grp) (succ_of g v) -> has_node g u = true.
Proof.
  unfold succ_of; intros Hwf Hin.
  destruct (find_node g v) as [n|] eqn:E; [|contradiction].
  apply find_node_In in E as [Hn _].
  unfold wf_graphb in Hwf; rewrite forallb_forall in Hwf.
  specialize (Hwf n Hn); apply andb_true_iff in Hwf as [_ H2].
  rewrite forallb_forall in H2; exact (H2 _ Hin).
Qed.

Lemma edge_cost_some (g : graph) (key : string) (a b c : nat) :
  edge_cost g key a b = Some c ->
  exists grp, lookup b (succ_of g a) = Some grp /\ c = weight_fn key grp.
Proof.
  unfold edge_cost; destruct (lookup b (succ_of g a)) as [grp|]; simpl;
    intros H; inversion H; eauto.
Qed.

Lemma hd_error_snoc (p : list nat) (u a : nat) :
  hd_error p = Some a -> hd_error (p ++ [u]) = Some a.
Proof. destruct p; simpl; congruence. Qed.

Lemma last_error_snoc (p : list nat) (u : nat) : last_error (p ++ [u]) = Some u.
Proof.
  induction p as [|a t IH]; [reflexivity|].
  simpl; destruct (t ++ [u]) eqn:E; [destruct t; discriminate|exact IH].
Qed.

Lemma path_weight_cons2 (g : graph) (key : string) (a b : nat) (t : list nat) :
  path_weight g key (a :: b :: t) =
  match edge_cost g key a b, path_weight g key (b :: t) with
  | Some c, Some w => Some (c + w)
  | _, _ => None
  end.
Proof. reflexivity. Qed.

Lemma path_weight_snoc (g : graph) (key : string) (p : list nat) (a u w c : nat) :
  last_error p = Some a -> path_weight g key p = Some w ->
  edge_cost g key a u = Some c ->
  path_weight g key (p ++ [u]) = Some (w + c).
Proof.
  revert w; induction p as [|b t IH]; intros w Hl Hw Hc; [discriminate|].
  destruct t as [|b' t'].
  - simpl in *; inversion Hl; inversion Hw; subst; rewrite Hc; f_equal; lia.
  - change ((b :: b' :: t') ++ [u]) with (b :: b' :: (t' ++ [u])).
    rewrite path_weight_cons2 in Hw |- *.
    destruct (edge_cost g key b b') as [c1|]; [|discriminate].
    destruct (path_weight g key (b' :: t')) as [w1|] eqn:E1; [|discriminate].
    inversion Hw; subst.
    change (b' :: t' ++ [u]) with ((b' :: t') ++ [u]).
    rewrite (IH w1 Hl eq_refl Hc); f_equal; lia.
Qed.

Lemma is_path_snoc (g : graph) (key : string) (s a u : nat) (p : list nat) (w c : nat) :
  is_path g key s a p w -> edge_cost g key a u = Some c ->
  is_path g key s u (p ++ [u]) (w + c).
Proof.
  intros [Hh [Hl Hw]] Hc; repeat split.
  - apply hd_error_snoc; exact Hh.
  - apply last_error_snoc.
  - eapply path_weight_snoc; eauto.
Qed.

(** A path is either a single node or a first edge followed by a path. *)
Lemma is_path_inv (g : graph) (key : string) (a b : nat) (p : list nat) (w : nat) :
  is_path g key a b p w ->
  (p = [a] /\ a = b /\ w = 0) \/
  exists z rest c w', p = a :: z :: rest /\ edge_cost g key a z = Some c /\
    is_path g key z b (z :: rest) w' /\ w = c + w'.
Proof.
  intros [Hh [Hl Hw]].
  destruct p as [|a' [|z rest]]; [discriminate| |].
  - simpl in *; inversion Hh; inversion Hl; inversion Hw; subst; left; auto.
  - simpl in Hh; inversion Hh; subst a'; right.
    rewrite path_weight_cons2 in Hw.
    destruct (edge_cost g key a z) as [c|] eqn:Ec; [|discriminate].
    destruct (path_weight g key (z :: rest)) as [w'|] eqn:E; [|discriminate].
    inversion Hw; subst.
    exists z, rest, c, w'; repeat split; auto.
Qed.

Lemma is_path_has_node (g : graph) (key : string) (a b : nat) (p : list nat) (w : nat) :
  is_path g key a b p w -> a <> b -> has_node g a = true.
Proof.
  intros Hp Hne; apply is_path_inv in Hp as [[_ [? _]]|[z [rest [c [w' [_ [Hc _]]]]]]];
    [contradiction|].
  apply edge_cost_some in Hc as [grp [Hl _]].
  apply succ_of_nonempty_has_node; intros E; rewrite E in Hl; discriminate.
Qed.

(** ** [heappop] *)

Definition ent_d (e : entry) : nat := let '(d, _, _) := e in d.

Lemma heap_pop_none (h : list entry) : heap_pop h = None -> h = [].
Proof.
  destruct h as [|e t]; simpl; [reflexivity|].
  destruct (heap_pop t) as [[m r]|]; [destruct (entry_le e m)|]; discriminate.
Qed.

Lemma heap_pop_some (h : list entry) (m : entry) (r : list entry) :
  heap_pop h = Some (m, r) ->
  Permutation h (m :: r) /\ (forall e, In e h -> ent_d m <= ent_d e).
Proof.
  revert m r; induction h as [|e t IH]; intros m r H; [discriminate|].
  simpl in H; destruct (heap_pop t) as [[m' r']|] eqn:Et.
  - destruct (IH m' r' eq_refl) as [Hperm Hmin].
    assert (Hcmp : if entry_le e m' then ent_d e <= ent_d m' else ent_d m' <= ent_d e).
    { destruct e as [[d1 c1] v1], m' as [[d2 c2] v2]; unfold entry_le; simpl.
      destruct (Nat.ltb_spec d1 d2); simpl; [lia|].
      destruct (Nat.eqb_spec d1 d2); simpl; [destruct (c1 <=? c2); lia|lia]. }
    destruct (entry_le e m'); inversion H; subst; split.
    + reflexivity.
    + intros e' [<-|Hin]; [lia|]. specialize (Hmin e' Hin); lia.
    + eapply perm_trans; [apply perm_skip; exact Hperm|apply perm_swap].
    + intros e' [<-|Hin]; [lia|auto].
  - apply heap_pop_none in Et; subst t; inversion H; subst; split.
    + reflexivity.
    + intros e' [<-|[]]; lia.
Qed.

(** ** Correctness of the search *)

Section Dijkstra.

Variable g : graph.
Variable key : string.
Variables s t : nat.
Hypothesis Hwf : wf_graphb g = true.

(** The facts about [seen], [paths] and the heap that the relaxation loop
    keeps. *)
Record relax_inv (st : dstate) : Prop := {
  ri_src : lookup s (seen st) = Some 0;
  ri_dist_seen : forall v d, lookup v (dist st) = Some d -> lookup v (seen st) = Some d;
  ri_paths : forall v d, lookup v (seen st) = Some d ->
    exists p, lookup v (paths st) = Some p /\ is_path g key s v p d;
  ri_fr_seen : forall d c u, In (d, c, u) (fringe st) -> lookup u (dist st) = None ->
    exists su, lookup u (seen st) = Some su /\ su <= d;
  ri_fr_mono : forall d c u, In (d, c, u) (fringe st) ->
    forall v dv, lookup v (dist st) = Some dv -> dv <= d;
  ri_seen_fr : forall u su, lookup u (seen st) = Some su -> lookup u (dist st) = None ->
    exists c, In (su, c, u) (fringe st)
}.

(** The loop invariant of [while fringe:]. *)
Record dinv (st : dstate) : Prop := {
  di_base : relax_inv st;
  di_opt : forall v d, lookup v (dist st) = Some d ->
    forall p w, is_path g key s v p w -> d <= w;
  di_frontier : forall v dv, lookup v (dist st) = Some dv ->
    forall u grp, lookup u (succ_of g v) = Some grp ->
    lookup u (dist st) <> None \/
    exists su, lookup u (seen st) = Some su /\ su <= dv + weight_fn key grp;
  di_target : lookup t (dist st) = None
}.

Definition seen_le (st st' : dstate) : Prop :=
  forall u su, lookup u (seen st) = Some su ->
  exists su', lookup u (seen st') = Some su' /\ su' <= su.

Lemma seen_le_refl (st : dstate) : seen_le st st.
Proof. intros u su H; exists su; auto. Qed.

Lemma seen_le_trans (a b c : dstate) : seen_le a b -> seen_le b c -> seen_le a c.
Proof.
  intros H1 H2 u su H; destruct (H1 u su H) as [su1 [E1 L1]].
  destruct (H2 u su1 E1) as [su2 [E2 L2]]; exists su2; split; [exact E2|lia].
Qed.

Lemma push_relax_inv (v dv : nat) (pv : list nat) (u : nat) (grp : edge_group)
      (st : dstate) :
  relax_inv st -> lookup v (dist st) = Some dv ->
  (forall x dx, lookup x (dist st) = Some dx -> dx <= dv) ->
  is_path g key s v pv dv ->
  lookup u (succ_of g v) = Some grp ->
  lookup u (dist st) = None ->
  (forall su, lookup u (seen st) = Some su -> dv + weight_fn key grp < su) ->
  relax_inv (push_node u (dv + weight_fn key grp) pv st) /\
  seen_le st (push_node u (dv + weight_fn key grp) pv st).
Proof.
  intros Hri Hv Hmax Hpv Hedge Hu Hlt.
  set (vu := dv + weight_fn key grp) in *.
  assert (Hus : u <> s).
  { intros ->; specialize (Hlt 0 (ri_src _ Hri)); lia. }
  split; [constructor|]; unfold push_node; cbn [dist seen fringe paths lookup].
  - destruct (Nat.eqb_spec s u); [congruence|exact (ri_src _ Hri)].
  - intros x d Hx; destruct (Nat.eqb_spec x u) as [->|]; [congruence|].
    exact (ri_dist_seen _ Hri x d Hx).
  - intros x d Hx; destruct (Nat.eqb_spec x u) as [->|].
    + inversion Hx; subst d; exists (pv ++ [u]); split; [reflexivity|].
      eapply is_path_snoc; [exact Hpv|].
      unfold edge_cost; rewrite Hedge; reflexivity.
    + exact (ri_paths _ Hri x d Hx).
  - intros d c x [Heq|Hin] Hx.
    + inversion Heq; subst; rewrite Nat.eqb_refl; eauto.
    + destruct (Nat.eqb_spec x u) as [->|].
      * destruct (ri_fr_seen _ Hri d c u Hin Hx) as [su [Hsu Hle]].
        specialize (Hlt su Hsu); exists vu; split; [reflexivity|lia].
      * exact (ri_fr_seen _ Hri d c x Hin Hx).
  - intros d c x [Heq|Hin] y dy Hy.
    + inversion Heq; subst; specialize (Hmax y dy Hy); unfold vu; lia.
    + exact (ri_fr_mono _ Hri d c x Hin y dy Hy).
  - intros x su Hx Hxd; destruct (Nat.eqb_spec x u) as [->|].
    + inversion Hx; subst su; exists (cnt st); left; reflexivity.
    + destruct (ri_seen_fr _ Hri x su Hx Hxd) as [c Hc]; exists c; right; exact Hc.
  - intros x su Hx; unfold push_node; cbn [seen lookup].
    destruct (Nat.eqb_spec x u) as [->|].
    + specialize (Hlt su Hx); exists vu; split; [reflexivity|lia].
    + exists su; auto.
Qed.

Lemma relax_spec (v dv : nat) (pv : list nat) :
  forall es st,
  relax_inv st -> lookup v (dist st) = Some dv ->
  (forall x dx, lookup x (dist st) = Some dx -> dx <= dv) ->
  is_path g key s v pv dv ->
  (forall u grp, In (u, grp) es -> lookup u (succ_of g v) = Some grp) ->
  exists st', relax key dv pv es st = Ok st' /\ relax_inv st' /\
    dist st' = dist st /\ seen_le st st' /\
    (forall u grp, In (u, grp) es ->
       lookup u (dist st') <> None \/
       exists su, lookup u (seen st') = Some su /\ su <= dv + weight_fn key grp) /\
    length (fringe st') <= length (fringe st) + length es.
Proof.
  induction es as [|[u grp] es IH]; intros st Hri Hv Hmax Hpv Hes.
  - exists st; simpl; split; [reflexivity|]; split; [exact Hri|]; split; [reflexivity|].
    split; [apply seen_le_refl|]; split; [intros ? ? []|lia].
  - assert (Hedge : lookup u (succ_of g v) = Some grp) by (apply Hes; left; reflexivity).
    assert (Hes' : forall u' grp', In (u', grp') es -> lookup u' (succ_of g v) = Some grp')
      by (intros; apply Hes; right; assumption).
    (* a recursive call on an unchanged state *)
    assert (Hkeep : (lookup u (dist st) <> None \/
                     exists su, lookup u (seen st) = Some su /\ su <= dv + weight_fn key grp) ->
      exists st', relax key dv pv es st = Ok st' /\ relax_inv st' /\
        dist st' = dist st /\ seen_le st st' /\
        (forall u' grp', In (u', grp') ((u, grp) :: es) ->
           lookup u' (dist st') <> None \/
           exists su, lookup u' (seen st') = Some su /\ su <= dv + weight_fn key grp') /\
        length (fringe st') <= length (fringe st) + length ((u, grp) :: es)).
    { intros Hu.
      destruct (IH st Hri Hv Hmax Hpv Hes') as [st' [Hr [Hri' [Hd [Hle [Hall Hlen]]]]]].
      exists st'; split; [exact Hr|]; split; [exact Hri'|]; split; [exact Hd|].
      split; [exact Hle|]; split; [|simpl; lia].
      intros u' grp' [Heq|Hin]; [|auto].
      inversion Heq; subst u' grp'.
      destruct Hu as [Hu|[su [Hsu Hle']]].
      - left; rewrite Hd; exact Hu.
      - right; destruct (Hle u su Hsu) as [su' [E L]]; exists su'; split; [exact E|lia]. }
    (* a recursive call after a push *)
    assert (Hpush : lookup u (dist st) = None ->
      (forall su, lookup u (seen st) = Some su -> dv + weight_fn key grp < su) ->
      exists st', relax key dv pv es (push_node u (dv + weight_fn key grp) pv st) = Ok st' /\
        relax_inv st' /\ dist st' = dist st /\ seen_le st st' /\
        (forall u' grp', In (u', grp') ((u, grp) :: es) ->
           lookup u' (dist st') <> None \/
           exists su, lookup u' (seen st') = Some su /\ su <= dv + weight_fn key grp') /\
        length (fringe st') <= length (fringe st) + length ((u, grp) :: es)).
    { intros Hud Hlt.
      destruct (push_relax_inv v dv pv u grp st Hri Hv Hmax Hpv Hedge Hud Hlt) as [Hri1 Hle1].
      destruct (IH _ Hri1 Hv Hmax Hpv Hes') as [st' [Hr [Hri' [Hd [Hle [Hall Hlen]]]]]].
      exists st'; split; [exact Hr|]; split; [exact Hri'|]; split; [exact Hd|].
      split; [|split].
      - eapply seen_le_trans; eauto.
      - intros u' grp' [Heq|Hin]; [|auto].
        inversion Heq; subst u' grp'; right.
        assert (E : lookup u (seen (push_node u (dv + weight_fn key grp) pv st))
                    = Some (dv + weight_fn key grp))
          by (unfold push_node; cbn [seen lookup]; rewrite Nat.eqb_refl; reflexivity).
        destruct (Hle _ _ E) as [su' [E' L]]; exists su'; auto.
      - simpl in Hlen |- *; lia. }
    cbn [relax].
    destruct (lookup u (dist st)) as [ud|] eqn:Hud.
    + assert (ud <= dv) by (apply (Hmax u ud Hud)).
      destruct (Nat.ltb_spec (dv + weight_fn key grp) ud); [lia|].
      apply Hkeep; left; congruence.
    + destruct (lookup u (seen st)) as [su|] eqn:Hus.
      * destruct (Nat.ltb_spec (dv + weight_fn key grp) su).
        -- apply Hpush; [reflexivity|]; intros su' E; inversion E; subst; assumption.
        -- apply Hkeep; right; exists su; split; [reflexivity|lia].
      * apply Hpush; [reflexivity|]; discriminate.
Qed.

(** Any path leaving the settled nodes crosses a seen, unsettled node no
    heavier than the path. *)
Lemma cross (st : dstate) : dinv st ->
  forall p x y w, is_path g key x y p w -> lookup y (dist st) = None ->
  forall q base, is_path g key s x q base ->
  (lookup x (dist st) = None -> exists sx, lookup x (seen st) = Some sx /\ sx <= base) ->
  exists u su, lookup u (dist st) = None /\ lookup u (seen st) = Some su /\ su <= base + w.
Proof.
  intros Hinv p; induction p as [|a p0 IH]; intros x y w Hp Hy q base Hq Hx.
  { destruct Hp as [Hh _]; discriminate. }
  apply is_path_inv in Hp as [[Ep [<- ->]]|[z [rest [c [w' [Ep [Hc [Hp' ->]]]]]]]].
  - destruct (Hx Hy) as [sx [E L]]; exists x, sx; repeat split; auto; lia.
  - inversion Ep; subst a p0.
    destruct (lookup x (dist st)) as [dx|] eqn:Hdx.
    + assert (Hdxb : dx <= base) by (exact (di_opt _ Hinv x dx Hdx q base Hq)).
      destruct (edge_cost_some _ _ _ _ _ Hc) as [grp [Hgrp ->]].
      assert (Hq' : is_path g key s z (q ++ [z]) (base + weight_fn key grp)).
      { eapply is_path_snoc; [exact Hq|]; unfold edge_cost; rewrite Hgrp; reflexivity. }
      destruct (IH z y w' Hp' Hy (q ++ [z]) (base + weight_fn key grp) Hq') as [u [su [H1 [H2 H3]]]].
      * intros Hz; destruct (di_frontier _ Hinv x dx Hdx z grp Hgrp) as [Hin|[sz [E L]]];
          [contradiction|exists sz; split; [exact E|lia]].
      * exists u, su; repeat split; auto; lia.
    + destruct (Hx eq_refl) as [sx [E L]]; exists x, sx; repeat split; auto; lia.
Qed.

Lemma is_path_refl (a : nat) : is_path g key a a [a] 0.
Proof. repeat split. Qed.

(** No unsettled node is seen through a path: the heap is non-empty. *)
Lemma cross_from_source (st : dstate) : dinv st ->
  forall p y w, is_path g key s y p w -> lookup y (dist st) = None ->
  exists u su c, lookup u (dist st) = None /\ In (su, c, u) (fringe st) /\ su <= w.
Proof.
  intros Hinv p y w Hp Hy.
  destruct (cross st Hinv p s y w Hp Hy [s] 0 (is_path_refl s)) as [u [su [H1 [H2 H3]]]].
  { intros _; exists 0; split; [exact (ri_src _ (di_base _ Hinv))|lia]. }
  destruct (ri_seen_fr _ (di_base _ Hinv) u su H2 H1) as [c Hc].
  exists u, su, c; repeat split; auto; lia.
Qed.


(** ** Termination measure: heap size plus the out-degrees of the unsettled
    nodes. *)
Fixpoint unsettled_succ (g' : graph) (D : list (nat * nat)) : nat :=
  match g' with
  | [] => 0
  | n :: t' =>
      match lookup (nid n) D with
      | None => length (succ n)
      | Some _ => 0
      end + unsettled_succ t' D
  end.

Definition pot (st : dstate) : nat := length (fringe st) + unsettled_succ g (dist st).

Lemma unsettled_nil (g' : graph) : unsettled_succ g' [] = total_succ g'.
Proof. induction g' as [|n t' IH]; simpl; auto. Qed.

Lemma succ_of_cons (n : node) (g' : graph) (v : nat) :
  succ_of (n :: g') v = if nid n =? v then succ n else succ_of g' v.
Proof. unfold succ_of, find_node; simpl; destruct (nid n =? v); reflexivity. Qed.

Lemma unsettled_settle (g' : graph) (D : list (nat * nat)) (v d : nat) :
  lookup v D = None ->
  length (succ_of g' v) + unsettled_succ g' ((v, d) :: D) <= unsettled_succ g' D.
Proof.
  intros Hv; induction g' as [|n t' IH]; [simpl; lia|].
  rewrite succ_of_cons; cbn [unsettled_succ lookup].
  destruct (Nat.eqb_spec (nid n) v) as [E|E].
  - rewrite E, Hv.
    assert (unsettled_succ t' ((v, d) :: D) <= unsettled_succ t' D) by
      (clear IH; induction t' as [|m t'' IH']; cbn [unsettled_succ lookup]; [lia|];
       destruct (nid m =? v); [|]; destruct (lookup (nid m) D); lia).
    lia.
  - destruct (Nat.eqb_spec v (nid n)); [congruence|].
    destruct (lookup (nid n) D); lia.
Qed.

(** What the loop leaves behind about the target. *)
Definition final (st : dstate) : Prop :=
  (forall d, lookup t (dist st) = Some d ->
     exists p, lookup t (paths st) = Some p /\ is_path g key s t p d /\
       forall q w, is_path g key s t q w -> d <= w) /\
  (lookup t (dist st) = None -> forall q w, ~ is_path g key s t q w).

(** Popping an entry of a settled node. *)
Lemma dinv_skip (st : dstate) (e : entry) (rest : list entry) (d c v : nat) :
  dinv st -> Permutation (fringe st) (e :: rest) -> e = (d, c, v) ->
  lookup v (dist st) <> None -> dinv (set_fringe rest st).
Proof.
  intros Hinv Hperm -> Hv.
  assert (Hsub : forall e', In e' rest -> In e' (fringe st))
    by (intros e' H; apply (Permutation_in _ (Permutation_sym Hperm)); right; exact H).
  destruct Hinv as [[H1 H2 H3 H4 H5 H6] H7 H8 H9].
  constructor; [constructor| | |]; unfold set_fringe; cbn [dist seen fringe paths]; auto.
  - intros d' c' u Hin; apply (H4 d' c' u (Hsub _ Hin)).
  - intros d' c' u Hin; apply (H5 d' c' u (Hsub _ Hin)).
  - intros u su Hs Hd; destruct (H6 u su Hs Hd) as [c' Hc'].
    apply (Permutation_in _ Hperm) in Hc' as [Heq|Hin]; [|eauto].
    inversion Heq; subst; contradiction.
Qed.

(** The entry popped for an unsettled node carries its [seen] distance,
    which no path to it undercuts and no settled distance exceeds. *)
Lemma popped_facts (st : dstate) (rest : list entry) (d c v : nat) :
  dinv st -> Permutation (fringe st) ((d, c, v) :: rest) ->
  (forall e, In e (fringe st) -> d <= ent_d e) ->
  lookup v (dist st) = None ->
  lookup v (seen st) = Some d /\
  (forall p w, is_path g key s v p w -> d <= w) /\
  (forall x dx, lookup x (dist st) = Some dx -> dx <= d).
Proof.
  intros Hinv Hperm Hmin Hv.
  pose proof (di_base _ Hinv) as Hri.
  assert (Hin : In (d, c, v) (fringe st))
    by (apply (Permutation_in _ (Permutation_sym Hperm)); left; reflexivity).
  split; [|split].
  - destruct (ri_fr_seen _ Hri d c v Hin Hv) as [sv [Hsv Hle]].
    destruct (ri_seen_fr _ Hri v sv Hsv Hv) as [c' Hc'].
    specialize (Hmin _ Hc'); simpl in Hmin.
    rewrite Hsv; f_equal; lia.
  - intros p w Hp.
    destruct (cross_from_source st Hinv p v w Hp Hv) as [u [su [c' [_ [Hc' Hle]]]]].
    specialize (Hmin _ Hc'); simpl in Hmin; lia.
  - intros x dx Hx; exact (ri_fr_mono _ Hri d c v Hin x dx Hx).
Qed.

(** Settling the target ends the loop with an optimal path. *)
Lemma final_settle_target (st : dstate) (rest : list entry) (d c : nat) :
  dinv st -> Permutation (fringe st) ((d, c, t) :: rest) ->
  (forall e, In e (fringe st) -> d <= ent_d e) ->
  final (settle t d (set_fringe rest st)).
Proof.
  intros Hinv Hperm Hmin.
  destruct (popped_facts st rest d c t Hinv Hperm Hmin (di_target _ Hinv))
    as [Hseen [Hopt _]].
  unfold final, settle, set_fringe; cbn [dist paths lookup]; rewrite Nat.eqb_refl.
  split; [|discriminate].
  intros d' E; inversion E; subst d'.
  destruct (ri_paths _ (di_base _ Hinv) t d Hseen) as [p [Hp Hpath]].
  exists p; auto.
Qed.

(** Settling another node and relaxing its edges keeps the invariant and
    lowers the measure. *)
Lemma dinv_settle (st : dstate) (rest : list entry) (d c v : nat) :
  dinv st -> Permutation (fringe st) ((d, c, v) :: rest) ->
  (forall e, In e (fringe st) -> d <= ent_d e) ->
  lookup v (dist st) = None -> v <> t ->
  exists pv st2,
    lookup v (paths (settle v d (set_fringe rest st))) = Some pv /\
    relax key d pv (succ_of g v) (settle v d (set_fringe rest st)) = Ok st2 /\
    dinv st2 /\ pot st2 < pot st.
Proof.
  intros Hinv Hperm Hmin Hv Hvt.
  destruct (popped_facts st rest d c v Hinv Hperm Hmin Hv) as [Hseen [Hopt Hmax]].
  pose proof (di_base _ Hinv) as Hri.
  destruct (ri_paths _ Hri v d Hseen) as [pv [Hpv Hpath]].
  assert (Hsub : forall e, In e rest -> In e (fringe st))
    by (intros e H; apply (Permutation_in _ (Permutation_sym Hperm)); right; exact H).
  set (st1 := settle v d (set_fringe rest st)).
  assert (Hd1 : forall x, lookup x (dist st1) =
                          if x =? v then Some d else lookup x (dist st)) by reflexivity.
  assert (Hri1 : relax_inv st1).
  { destruct Hri as [H1 H2 H3 H4 H5 H6].
    constructor; cbn [st1 settle set_fringe seen paths fringe]; auto.
    - intros x dx Hx; rewrite Hd1 in Hx.
      destruct (Nat.eqb_spec x v) as [->|]; [inversion Hx; subst; exact Hseen|auto].
    - intros d' c' u Hin Hu; rewrite Hd1 in Hu.
      destruct (Nat.eqb_spec u v); [discriminate|eauto].
    - intros d' c' u Hin x dx Hx; rewrite Hd1 in Hx.
      destruct (Nat.eqb_spec x v).
      + inversion Hx; subst dx; exact (Hmin _ (Hsub _ Hin)).
      + exact (H5 d' c' u (Hsub _ Hin) x dx Hx).
    - intros u su Hs Hu; rewrite Hd1 in Hu.
      destruct (Nat.eqb_spec u v); [discriminate|].
      destruct (H6 u su Hs Hu) as [c' Hc'].
      apply (Permutation_in _ Hperm) in Hc' as [Heq|Hin]; [|eauto].
      inversion Heq; subst; contradiction. }
  assert (Hv1 : lookup v (dist st1) = Some d) by (rewrite Hd1, Nat.eqb_refl; reflexivity).
  assert (Hmax1 : forall x dx, lookup x (dist st1) = Some dx -> dx <= d).
  { intros x dx Hx; rewrite Hd1 in Hx.
    destruct (Nat.eqb_spec x v); [inversion Hx; lia|eauto]. }
  assert (Hes : forall u grp, In (u, grp) (succ_of g v) -> lookup u (succ_of g v) = Some grp)
    by (intros u grp H; apply lookup_NoDup; [apply wf_succ_NoDup; exact Hwf|exact H]).
  destruct (relax_spec v d pv (succ_of g v) st1 Hri1 Hv1 Hmax1 Hpath Hes)
    as [st2 [Hr [Hri2 [Hd2 [Hle2 [Hall Hlen]]]]]].
  exists pv, st2; split; [exact Hpv|]; split; [exact Hr|]; split.
  - constructor; [exact Hri2| | |].
    + intros x dx Hx p w Hp; rewrite Hd2, Hd1 in Hx.
      destruct (Nat.eqb_spec x v) as [->|].
      * inversion Hx; subst; eauto.
      * exact (di_opt _ Hinv x dx Hx p w Hp).
    + intros x dx Hx u grp Hgrp; rewrite Hd2 in Hx |- *; rewrite Hd1 in Hx.
      destruct (Nat.eqb_spec x v) as [->|].
      * inversion Hx; subst dx; rewrite <- Hd2; apply Hall, lookup_In; exact Hgrp.
      * destruct (di_frontier _ Hinv x dx Hx u grp Hgrp) as [Hu|[su [Hsu Hle]]].
        -- left; rewrite Hd1; destruct (u =? v); [discriminate|exact Hu].
        -- right; destruct (Hle2 u su Hsu) as [su' [E L]]; exists su'; split; [exact E|lia].
    + rewrite Hd2, Hd1; destruct (Nat.eqb_spec t v); [congruence|exact (di_target _ Hinv)].
  - unfold pot; rewrite Hd2.
    pose proof (unsettled_settle g (dist st) v d Hv) as Hu.
    pose proof (Permutation_length Hperm) as Hl; simpl in Hl.
    cbn [st1 settle set_fringe fringe dist] in Hlen |- *; lia.
Qed.

Lemma loop_spec : forall fuel st, dinv st -> pot st < fuel ->
  exists st', dijkstra_loop g key t fuel st = Ok st' /\ final st'.
Proof.
  induction fuel as [|fuel IH]; intros st Hinv Hpot; [lia|].
  cbn [dijkstra_loop].
  destruct (heap_pop (fringe st)) as [[[[d c] v] rest]|] eqn:Hpop.
  - destruct (heap_pop_some _ _ _ Hpop) as [Hperm Hmin].
    unfold set_fringe at 1; cbn [dist].
    destruct (lookup v (dist st)) as [dv|] eqn:Hv.
    + apply IH.
      * eapply dinv_skip; [exact Hinv|exact Hperm|reflexivity|congruence].
      * unfold pot, set_fringe in *; cbn [fringe dist] in *.
        pose proof (Permutation_length Hperm) as Hl; simpl in Hl; lia.
    + destruct (Nat.eqb_spec v t) as [->|Hvt].
      * eexists; split; [reflexivity|].
        exact (final_settle_target st rest d c Hinv Hperm Hmin).
      * destruct (dinv_settle st rest d c v Hinv Hperm Hmin Hv Hvt)
          as [pv [st2 [Hpv [Hr [Hinv2 Hpot2]]]]].
        rewrite Hpv, Hr; apply IH; [exact Hinv2|lia].
  - apply heap_pop_none in Hpop.
    exists st; split; [reflexivity|].
    split; [intros d E; rewrite (di_target _ Hinv) in E; discriminate|].
    intros _ q w Hq.
    destruct (cross_from_source st Hinv q t w Hq (di_target _ Hinv)) as [u [su [c [_ [Hc _]]]]].
    rewrite Hpop in Hc; contradiction.
Qed.

Lemma dinv_init : s <> t -> dinv (init_state s).
Proof.
  intros Hst; constructor; [constructor| | |]; cbn [init_state dist seen fringe paths lookup].
  - rewrite Nat.eqb_refl; reflexivity.
  - discriminate.
  - intros v d H; destruct (Nat.eqb_spec v s) as [->|]; [|discriminate].
    inversion H; subst; exists [s]; split; [reflexivity|apply is_path_refl].
  - intros d c u [E|[]] _; inversion E; subst; rewrite Nat.eqb_refl; eauto.
  - discriminate.
  - intros u su H _; destruct (Nat.eqb_spec u s) as [->|]; [|discriminate].
    inversion H; subst; exists 0; left; reflexivity.
  - discriminate.
  - discriminate.
  - reflexivity.
Qed.

(** The search from a node of the graph to another node either finds a
    minimum-weight path or reports [NetworkXNoPath] when there is none. *)
Lemma shortest_path_spec : has_node g s = true -> s <> t ->
  (exists p d, shortest_path g s t key = Ok p /\ is_path g key s t p d /\
     forall q w, is_path g key s t q w -> d <= w) \/
  (shortest_path g s t key = Err NetworkXNoPath /\ forall q w, ~ is_path g key s t q w).
Proof.
  intros Hs Hst.
  destruct (loop_spec (loop_fuel g) (init_state s) (dinv_init Hst)) as [st [Hl [Hf1 Hf2]]].
  { unfold pot, loop_fuel; cbn [init_state fringe dist length]; rewrite unsettled_nil; lia. }
  unfold shortest_path, single_source_dijkstra.
  destruct (Nat.eqb_spec s t); [contradiction|].
  rewrite Hs; cbn [negb]; rewrite Hl.
  destruct (lookup t (dist st)) as [d|] eqn:Ht.
  - destruct (Hf1 d eq_refl) as [p [Hp [Hpath Hopt]]].
    rewrite Hp; left; exists p, d; auto.
  - right; split; [reflexivity|exact (Hf2 eq_refl)].
Qed.

End Dijkstra.

(** ** Weights: a missing weight key *)

Lemma attr_get_absent (key : string) (d : attrs) (dflt : nat) :
  ~ In key (map fst d) -> attr_get key d dflt = dflt.
Proof.
  induction d as [|[k' v] t IH]; simpl; [reflexivity|].
  intros Hn; destruct (String.eqb_spec key k') as [->|]; [exfalso; apply Hn; left; reflexivity|].
  apply IH; intros H; apply Hn; right; exact H.
Qed.

Lemma fold_min_ones (ds : list attrs) (key : string) :
  (forall d, In d ds -> ~ In key (map fst d)) ->
  fold_left (fun m d => Nat.min m (attr_get key d 1)) ds 1 = 1.
Proof.
  induction ds as [|d t IH]; simpl; intros H; [reflexivity|].
  rewrite attr_get_absent by (apply H; left; reflexivity).
  apply IH; intros; apply H; right; assumption.
Qed.

(** The example graphs of the counterexamples and witnesses. *)
Definition e_dist (n : nat) : edge_group := ([("distance"%string, n)], []).
Definition e_len (n : nat) : edge_group := ([("length"%string, n)], []).

(** 1 -> 2 -> 3 with [distance] 5 each, and a direct edge 1 -> 3 that has
    only a [length] attribute. *)
Definition g_missing : graph :=
  [ mk_node 1 0 0 1 [(2, e_dist 5); (3, e_len 500)];
    mk_node 2 0 0 2 [(3, e_dist 5)];
    mk_node 3 0 0 3 [] ].

(** A single edge 1 -> 2 with only a [length] attribute. *)
Definition g_missing_only : graph :=
  [ mk_node 1 0 0 1 [(2, e_len 7)];
    mk_node 2 0 0 2 [] ].

(** The perimeter square of the spec's scenario with the diagonal 1 -> 3. *)
Definition g_square : graph :=
  [ mk_node 1 0 0 1 [(2, e_dist 10); (4, e_dist 10); (3, e_dist 12)];
    mk_node 2 10 0 2 [(1, e_dist 10); (3, e_dist 10)];
    mk_node 3 10 10 3 [(2, e_dist 10); (4, e_dist 10); (1, e_dist 12)];
    mk_node 4 0 10 4 [(3, e_dist 10); (1, e_dist 10)] ].

(** The same square with other coordinates, osm ids and extra attributes. *)
Definition g_square' : graph :=
  [ mk_node 1 5 5 101 [(2, ([("distance"%string, 10); ("lanes"%string, 2)], [])); (4, e_dist 10); (3, e_dist 12)];
    mk_node 2 7 0 102 [(1, e_dist 10); (3, ([("distance"%string, 10)], [[("distance"%string, 30)]]))];
    mk_node 3 1 1 103 [(2, e_dist 10); (4, e_dist 10); (1, e_dist 12)];
    mk_node 4 0 9 104 [(3, e_dist 10); (1, e_dist 10)] ].

(** Scenario of the spec: the diagonal (12) beats the perimeter (20). *)
Example square_diagonal : shortest_path g_square 1 3 "distance" = Ok [1; 3].
Proof. reflexivity. Qed.

(** C1 (counterexample): the edge 1 -> 3 lacks the key [distance]; the
    search does not route around it but takes it with weight 1, and with no
    alternative it still returns a path instead of [NetworkXNoPath]. *)
Lemma missing_key_edge_is_traversed :
  lookup 3 (succ_of g_missing 1) = Some (e_len 500) /\
  is_path g_missing "distance" 1 3 [1; 2; 3] 10 /\
  shortest_path g_missing 1 3 "distance" = Ok [1; 3] /\
  lookup 2 (succ_of g_missing_only 1) = Some (e_len 7) /\
  shortest_path g_missing_only 1 2 "distance" = Ok [1; 2].
Proof. repeat split; reflexivity. Qed.

(** C1 (amended): an edge none of whose parallel attribute dicts has the
    requested key has weight 1 ([attr.get(weight, 1)]): it is a usable
    edge of weight 1, not an error and not an infinite weight. *)
Theorem missing_key_weight_one (g : graph) (key : string) (a b : nat) (grp : edge_group) :
  lookup b (succ_of g a) = Some grp ->
  (forall d, In d (fst grp :: snd grp) -> ~ In key (map fst d)) ->
  edge_cost g key a b = Some 1.
Proof.
  intros Hl Hn; unfold edge_cost; rewrite Hl; cbn [option_map]; f_equal.
  unfold weight_fn; rewrite attr_get_absent by (apply Hn; left; reflexivity).
  apply fold_min_ones; intros; apply Hn; right; assumption.
Qed.

Lemma missing_key_weight_one_witness :
  edge_cost g_missing "distance" 1 3 = Some 1.
Proof.
  apply (missing_key_weight_one g_missing "distance" 1 3 (e_len 500)); [reflexivity|].
  intros d [<-|[]]; simpl; intros [H|[]]; discriminate.
Defined.

(** ** Optimality and unreachability *)

(** C2: whenever some path joins [s] to [t], [shortest_path] returns a node
    sequence from [s] to [t] whose cumulative weight is at most that of
    every path from [s] to [t]. *)
Theorem shortest_path_optimal (g : graph) (key : string) (s t : nat) (q : list nat) (w : nat) :
  wf_graphb g = true -> is_path g key s t q w ->
  exists p d, shortest_path g s t key = Ok p /\ hd_error p = Some s /\
    last_error p = Some t /\ path_weight g key p = Some d /\
    forall q' w', is_path g key s t q' w' -> d <= w'.
Proof.
  intros Hwf Hq.
  destruct (Nat.eqb_spec s t) as [<-|Hst].
  - exists [s], 0; unfold shortest_path, single_source_dijkstra; rewrite Nat.eqb_refl.
    repeat split; intros; lia.
  - destruct (shortest_path_spec g key s t Hwf (is_path_has_node g key s t q w Hq Hst) Hst)
      as [[p [d [Hp [[Hh [Hl Hw]] Hopt]]]]|[_ Hno]].
    + exists p, d; auto.
    + exfalso; exact (Hno q w Hq).
Qed.

Lemma shortest_path_optimal_witness :
  exists p d, shortest_path g_square 1 3 "distance" = Ok p /\ hd_error p = Some 1 /\
    last_error p = Some 3 /\ path_weight g_square "distance" p = Some d /\
    forall q' w', is_path g_square "distance" 1 3 q' w' -> d <= w'.
Proof.
  apply (shortest_path_optimal g_square "distance" 1 3 [1; 2; 3] 20); [reflexivity|repeat split].
Defined.

(** C4: with no path from a node [s] of the graph to [t], [shortest_path]
    fails with [NetworkXNoPath], a failure of its own kind. *)
Theorem shortest_path_unreachable (g : graph) (key : string) (s t : nat) :
  wf_graphb g = true -> has_node g s = true ->
  (forall q w, ~ is_path g key s t q w) ->
  shortest_path g s t key = Err NetworkXNoPath.
Proof.
  intros Hwf Hs Hno.
  destruct (Nat.eqb_spec s t) as [<-|Hst]; [exfalso; exact (Hno [s] 0 (is_path_refl g key s))|].
  destruct (shortest_path_spec g key s t Hwf Hs Hst) as [[p [d [_ [Hp _]]]]|[Hr _]];
    [exfalso; exact (Hno p d Hp)|exact Hr].
Qed.

(** Two components [{1, 2}] and [{3, 4}] (scenario of the spec). *)
Definition g_two_parts : graph :=
  [ mk_node 1 0 0 1 [(2, e_dist 1)];
    mk_node 2 1 0 2 [(1, e_dist 1)];
    mk_node 3 5 5 3 [(4, e_dist 1)];
    mk_node 4 6 5 4 [(3, e_dist 1)] ].

Lemma shortest_path_unreachable_witness :
  shortest_path g_two_parts 1 3 "distance" = Err NetworkXNoPath.
Proof.
  apply shortest_path_unreachable; [reflexivity|reflexivity|].
  assert (H : forall q a w, (a = 1 \/ a = 2) -> ~ is_path g_two_parts "distance" a 3 q w).
  { induction q as [|b q IH]; intros a w Ha Hp; [destruct Hp as [Hh _]; discriminate|].
    apply is_path_inv in Hp as [[_ [E _]]|[z [rest [c [w' [Ep [Hc [Hp' _]]]]]]]];
      [destruct Ha; subst; discriminate|].
    inversion Ep; subst b q.
    apply (IH z w'); [|exact Hp'].
    destruct Ha as [->| ->]; unfold edge_cost in Hc; simpl in Hc;
      destruct (Nat.eqb_spec z 2); destruct (Nat.eqb_spec z 1); subst; auto; discriminate. }
  intros q w; apply H; left; reflexivity.
Defined.

(** ** Determinism *)

(** What the search reads of a graph for a weight key: the nodes and, for
    each, its neighbours in visiting order with the weight of the edges. *)
Definition view_e (key : string) (e : nat * edge_group) : nat * nat :=
  (fst e, weight_fn key (snd e)).

Definition weighted_view (g : graph) (key : string) : list (nat * list (nat * nat)) :=
  map (fun n => (nid n, map (view_e key) (succ n))) g.

Lemma view_has_node (g1 g2 : graph) (key : string) (v : nat) :
  weighted_view g1 key = weighted_view g2 key -> has_node g1 v = has_node g2 v.
Proof.
  revert g2; induction g1 as [|n1 t1 IH]; intros [|n2 t2] H; try discriminate; [reflexivity|].
  inversion H as [[Hid Hs Ht]]; unfold has_node; simpl; rewrite Hid.
  f_equal; apply IH; exact Ht.
Qed.

Lemma view_succ_of (g1 g2 : graph) (key : string) (v : nat) :
  weighted_view g1 key = weighted_view g2 key ->
  map (view_e key) (succ_of g1 v) = map (view_e key) (succ_of g2 v).
Proof.
  revert g2; induction g1 as [|n1 t1 IH]; intros [|n2 t2] H; try discriminate; [reflexivity|].
  inversion H as [[Hid Hs Ht]]; rewrite !succ_of_cons, Hid.
  destruct (nid n2 =? v); [exact Hs|apply IH; exact Ht].
Qed.

Lemma view_total_succ (g1 g2 : graph) (key : string) :
  weighted_view g1 key = weighted_view g2 key -> total_succ g1 = total_succ g2.
Proof.
  revert g2; induction g1 as [|n1 t1 IH]; intros [|n2 t2] H; try discriminate; [reflexivity|].
  inversion H as [[Hid Hs Ht]]; simpl.
  rewrite <- (length_map (view_e key) (succ n1)), <- (length_map (view_e key) (succ n2)), Hs.
  f_equal; apply IH; exact Ht.
Qed.

Lemma view_relax (key : string) (dv : nat) (pv : list nat) :
  forall es1 es2 st, map (view_e key) es1 = map (view_e key) es2 ->
  relax key dv pv es1 st = relax key dv pv es2 st.
Proof.
  induction es1 as [|[u1 g1] t1 IH]; intros [|[u2 g2] t2] st H; try discriminate; [reflexivity|].
  inversion H as [[Hu Hw Ht]]; unfold view_e in *; cbn [fst snd] in *; subst u2.
  cbn [relax]; rewrite Hw.
  destruct (lookup u1 (dist st)); [destruct (_ <? _); auto|].
  destruct (lookup u1 (seen st)); [destruct (_ <? _)|]; auto.
Qed.

Lemma view_loop (g1 g2 : graph) (key : string) (target : nat) :
  weighted_view g1 key = weighted_view g2 key ->
  forall fuel st, dijkstra_loop g1 key target fuel st = dijkstra_loop g2 key target fuel st.
Proof.
  intros H fuel; induction fuel as [|fuel IH]; intros st; [reflexivity|].
  cbn [dijkstra_loop].
  destruct (heap_pop (fringe st)) as [[[[d c] v] rest]|]; [|reflexivity].
  destruct (lookup v (dist (set_fringe rest st))); [apply IH|].
  destruct (v =? target); [reflexivity|].
  destruct (lookup v (paths (settle v d (set_fringe rest st)))); [|reflexivity].
  rewrite (view_relax key d _ (succ_of g1 v) (succ_of g2 v) _ (view_succ_of g1 g2 key v H)).
  destruct (relax key d _ (succ_of g2 v) _); [apply IH|reflexivity].
Qed.

(** C7: [shortest_path] is a function of the nodes, of their neighbours in
    visiting order and of the edge weights: two runs on the same graph give
    the same result, and ties are settled by that fixed visiting order
    (coordinates, osm ids and other attributes play no part). *)
Theorem shortest_path_deterministic (g1 g2 : graph) (key : string) (s t : nat) :
  weighted_view g1 key = weighted_view g2 key ->
  shortest_path g1 s t key = shortest_path g2 s t key.
Proof.
  intros H; unfold shortest_path, single_source_dijkstra, loop_fuel.
  rewrite (view_has_node g1 g2 key s H), (view_total_succ g1 g2 key H),
    (view_loop g1 g2 key t H).
  reflexivity.
Qed.

Lemma shortest_path_deterministic_witness :
  shortest_path g_square 2 4 "distance" = shortest_path g_square' 2 4 "distance".
Proof. apply shortest_path_deterministic; reflexivity. Defined.

(** The tie between 2 -> 1 -> 4 and 2 -> 3 -> 4 (weight 20 each) goes to the
    neighbour visited first. *)
Example square_tie : shortest_path g_square 2 4 "distance" = Ok [2; 1; 4].
Proof. reflexivity. Qed.

(** ** Route reconstruction *)

Lemma nodes_loc_spec (g : graph) : forall r ns, nodes_loc g r = Some ns ->
  length ns = length r /\
  forall i v, nth_error r i = Some v ->
    exists n, find_node g v = Some n /\ nth_error ns i = Some n.
Proof.
  induction r as [|v r IH]; intros ns H; simpl in H.
  - inversion H; subst; split; [reflexivity|intros [|i] ? E; discriminate].
  - destruct (find_node g v) as [n|] eqn:Ev; [|discriminate].
    destruct (nodes_loc g r) as [ns'|]; [|discriminate].
    inversion H; subst ns; destruct (IH ns' eq_refl) as [Hl Hn].
    split; [simpl; f_equal; exact Hl|].
    intros [|i] u E; simpl in E |- *; [inversion E; subst; eauto|eauto].
Qed.

Lemma nodes_loc_total (g : graph) : forall r,
  (forall v, In v r -> has_node g v = true) -> exists ns, nodes_loc g r = Some ns.
Proof.
  induction r as [|v r IH]; intros H; [exists []; reflexivity|].
  destruct (proj1 (has_node_find g v) (H v (or_introl eq_refl))) as [n En].
  destruct IH as [ns Ens]; [intros; apply H; right; assumption|].
  exists (n :: ns); simpl; rewrite En, Ens; reflexivity.
Qed.

Lemma route_line_nth (g : graph) (r : list nat) (l : list (Z * Z)) :
  route_line g r = Some l ->
  length l = length r /\
  forall i v, nth_error r i = Some v ->
    exists n, find_node g v = Some n /\ nth_error l i = Some (coord n).
Proof.
  unfold route_line.
  destruct (nodes_loc g r) as [ns|] eqn:E; [|discriminate].
  intros H; assert (Hl0 : l = map coord ns)
    by (unfold LineString in H; destruct (map coord ns) as [|? [|? ?]];
        inversion H; reflexivity).
  subst l.
  destruct (nodes_loc_spec g r ns E) as [Hl Hn].
  split; [rewrite length_map; exact Hl|].
  intros i v Hv; destruct (Hn i v Hv) as [n [Hf Hi]].
  exists n; split; [exact Hf|]; rewrite nth_error_map, Hi; reflexivity.
Qed.

Lemma build_route_line (g : graph) (r : list nat) (rg : route_geom) :
  build_route g r = Some rg -> route_line g r = Some (geometry rg).
Proof.
  unfold build_route, route_line.
  destruct (nodes_loc g r) as [ns|]; [|discriminate].
  destruct (LineString (map coord ns)) as [l|]; intros H; inversion H; reflexivity.
Qed.

(** C9: the line of [route_line] has one coordinate per route node, the
    [i]-th being the coordinate of the [i]-th node of the route. *)
Theorem route_line_coords (g : graph) (r : list nat) (l : list (Z * Z)) :
  route_line g r = Some l ->
  length l = length r /\
  forall i v, nth_error r i = Some v ->
    exists n, find_node g v = Some n /\ nth_error l i = Some (coord n).
Proof. exact (route_line_nth g r l). Qed.

Lemma route_line_coords_witness :
  route_line g_square [1; 2; 3] = Some [(0, 0); (10, 0); (10, 10)]%Z /\
  length [(0, 0); (10, 0); (10, 10)]%Z = length [1; 2; 3] /\
  forall i v, nth_error [1; 2; 3] i = Some v ->
    exists n, find_node g_square v = Some n /\
      nth_error [(0, 0); (10, 0); (10, 10)]%Z i = Some (coord n).
Proof.
  assert (H : route_line g_square [1; 2; 3] = Some [(0, 0); (10, 0); (10, 10)]%Z)
    by reflexivity.
  split; [exact H|exact (route_line_coords g_square [1; 2; 3] _ H)].
Defined.

(** All nodes of a path with an edge lie in the graph. *)
Lemma path_nodes_in_graph (g : graph) (key : string) (Hwf : wf_graphb g = true) :
  forall p a w, hd_error p = Some a -> path_weight g key p = Some w -> 2 <= length p ->
  forall v, In v p -> has_node g v = true.
Proof.
  induction p as [|a p IH]; intros a' w Hh Hw Hlen v Hv; [discriminate|].
  destruct p as [|b p]; [simpl in Hlen; lia|].
  rewrite path_weight_cons2 in Hw.
  destruct (edge_cost g key a b) as [c|] eqn:Hc; [|discriminate].
  destruct (path_weight g key (b :: p)) as [w'|] eqn:Hw'; [|discriminate].
  destruct (edge_cost_some _ _ _ _ _ Hc) as [grp [Hgrp _]].
  assert (Hb : has_node g b = true)
    by (eapply wf_succ_has_node; [exact Hwf|apply lookup_In; exact Hgrp]).
  destruct Hv as [<-|Hv].
  - apply succ_of_nonempty_has_node; intros E; rewrite E in Hgrp; discriminate.
  - destruct p as [|b' p].
    + destruct Hv as [<-|[]]; exact Hb.
    + eapply (IH b w'); [reflexivity|reflexivity|simpl; lia|exact Hv].
Qed.

Lemma last_error_nth (p : list nat) (v : nat) :
  last_error p = Some v -> nth_error p (length p - 1) = Some v.
Proof.
  induction p as [|a [|b p] IH]; intros H; [discriminate|exact H|].
  simpl in IH |- *; rewrite Nat.sub_0_r in IH; apply IH; exact H.
Qed.

Lemma last_error_length (p : list nat) (a b : nat) :
  hd_error p = Some a -> last_error p = Some b -> a <> b -> 2 <= length p.
Proof.
  destruct p as [|a' [|b' p]]; simpl; intros H1 H2 Hne; try discriminate; [congruence|lia].
Qed.

(** A single node, no edge. *)
Definition g_single : graph := [ mk_node 1 0 0 1 [] ].

(** C6 (counterexample): for [s = t] there is a path ([[s]]) and
    [shortest_path] returns [[s]], but a one-point [LineString] cannot be
    built, so no route geometry comes out. *)
Lemma same_endpoints_no_route :
  is_path g_single "distance" 1 1 [1] 0 /\
  shortest_path g_single 1 1 "distance" = Ok [1] /\
  build_route g_single [1] = None.
Proof. repeat split. Qed.

(** C6 (amended): for [s <> t] joined by a path, [build_route] applied to
    the result of [shortest_path] gives a line starting at the coordinate of
    [s] and ending at the coordinate of [t]. *)
Theorem route_endpoints (g : graph) (key : string) (s t : nat) (q : list nat) (w : nat) :
  wf_graphb g = true -> is_path g key s t q w -> s <> t ->
  exists p rg ns nt, shortest_path g s t key = Ok p /\ build_route g p = Some rg /\
    find_node g s = Some ns /\ find_node g t = Some nt /\
    nth_error (geometry rg) 0 = Some (coord ns) /\
    nth_error (geometry rg) (length (geometry rg) - 1) = Some (coord nt).
Proof.
  intros Hwf Hq Hst.
  destruct (shortest_path_spec g key s t Hwf (is_path_has_node g key s t q w Hq Hst) Hst)
    as [[p [d [Hp [[Hh [Hl Hw]] _]]]]|[_ Hno]]; [|exfalso; exact (Hno q w Hq)].
  pose proof (last_error_length p s t Hh Hl Hst) as Hlen.
  destruct (nodes_loc_total g p (path_nodes_in_graph g key Hwf p s d Hh Hw Hlen))
    as [ns Hns].
  assert (Hb : build_route g p = Some (mk_route_geom (map coord ns)
                 (py_str_list (map osmid ns)) (line_length (map coord ns)))).
  { unfold build_route, LineString; rewrite Hns.
    destruct (nodes_loc_spec g p ns Hns) as [Hl' _].
    rewrite <- (length_map coord) in Hl'.
    destruct (map coord ns) as [|c0 [|c1 cs]]; cbn [length] in Hl'; [lia|lia|reflexivity]. }
  destruct (route_line_nth g p _ (build_route_line g p _ Hb)) as [Hlg Hnth].
  cbn [geometry] in Hlg, Hnth.
  assert (Hs0 : nth_error p 0 = Some s) by (destruct p; [discriminate|exact Hh]).
  destruct (Hnth 0 s Hs0) as [ns0 [Hf0 Hn0]].
  destruct (Hnth (length p - 1) t (last_error_nth p t Hl)) as [nt0 [Hft Hnt]].
  eexists p, _, ns0, nt0; split; [exact Hp|]; split; [exact Hb|].
  cbn [geometry]; rewrite Hlg; auto.
Qed.

Lemma route_endpoints_witness :
  exists p rg ns nt, shortest_path g_square 2 4 "distance" = Ok p /\
    build_route g_square p = Some rg /\
    find_node g_square 2 = Some ns /\ find_node g_square 4 = Some nt /\
    nth_error (geometry rg) 0 = Some (coord ns) /\
    nth_error (geometry rg) (length (geometry rg) - 1) = Some (coord nt).
Proof.
  apply (route_endpoints g_square "distance" 2 4 [2; 3; 4] 20);
    [reflexivity|repeat split|discriminate].
Defined.

(** ** The [osmids] and [length_m] columns *)

(** Every character is a decimal digit. *)
Fixpoint all_digits (str : string) : Prop :=
  match str with
  | EmptyString => True
  | String c rest => 48 <= nat_of_ascii c <= 57 /\ all_digits rest
  end.

Lemma digits_all_digits : forall fuel n acc,
  all_digits acc -> all_digits (digits fuel n acc).
Proof.
  induction fuel as [|fuel IH]; intros n acc H; [exact H|].
  cbn [digits].
  assert (Hc : all_digits (String (ascii_of_nat (48 + n mod 10)) acc)).
  { split; [|exact H].
    rewrite nat_ascii_embedding by (pose proof (Nat.mod_upper_bound n 10); lia).
    pose proof (Nat.mod_upper_bound n 10); lia. }
  destruct (n <? 10); [exact Hc|apply IH; exact Hc].
Qed.

Lemma string_of_nat_digits (n : nat) : all_digits (string_of_nat n).
Proof. apply digits_all_digits; exact I. Qed.

Lemma seg_length_axis : seg_length (0, 0)%Z (3, 0)%Z = 3%R.
Proof.
  unfold seg_length; cbn [fst snd].
  replace (IZR (3 - 0) ^ 2 + IZR (0 - 0) ^ 2)%R with (3 * 3)%R
    by (cbn [Z.sub Z.add Z.opp Z.pos_sub]; ring).
  apply sqrt_square; lra.
Qed.

Lemma line_length_axis : line_length [(0, 0); (3, 0)]%Z = 3%R.
Proof. cbn [line_length]; rewrite seg_length_axis; ring. Qed.

(** Nodes 1 (osmid 10) at (0, 0) and 2 (osmid 20) at (3, 0), joined by one
    edge whose [length] is 5. *)
Definition g_segment : graph :=
  [ mk_node 1 0 0 10 [(2, e_len 5)];
    mk_node 2 3 0 20 [] ].

(** C8 (counterexample): the route [[1; 2]] has one edge, but [osmids] is
    the string ["['10', '20']"], the node osmids, which renders no one-entry
    list. *)
Lemma osmids_per_node_not_per_edge :
  exists rg, build_route g_segment [1; 2] = Some rg /\
    osmids rg = "['10', '20']"%string /\
    ~ exists ids, length ids = length [1; 2] - 1 /\ osmids rg = py_str_list ids.
Proof.
  eexists; split; [reflexivity|]; split; [reflexivity|].
  cbn [osmids]; intros [ids [Hl Hs]].
  destruct ids as [|n [|? ?]]; try discriminate.
  unfold py_str_list, py_repr_str in Hs; cbn [map String.concat] in Hs.
  pose proof (string_of_nat_digits n) as Hd.
  destruct (string_of_nat n) as [|c1 [|c2 [|c3 rest]]]; simpl in Hs;
    inversion Hs; subst.
  destruct Hd as [_ [_ [Hc3 _]]]; cbn in Hc3; lia.
Qed.

(** C8 (amended): [osmids] is Python's [str] of the list of the [osmid]
    attributes of the route nodes, as strings: one entry per route node, in
    route order. *)
Theorem route_osmids_per_node (g : graph) (r : list nat) (rg : route_geom) :
  build_route g r = Some rg ->
  exists ids, osmids rg = py_str_list ids /\ length ids = length r /\
    forall i v, nth_error r i = Some v ->
      exists n, find_node g v = Some n /\ nth_error ids i = Some (osmid n).
Proof.
  unfold build_route.
  destruct (nodes_loc g r) as [ns|] eqn:E; [|discriminate].
  destruct (LineString (map coord ns)) as [l|]; intros H; inversion H; subst rg.
  destruct (nodes_loc_spec g r ns E) as [Hl Hn].
  exists (map osmid ns); split; [reflexivity|]; split; [rewrite length_map; exact Hl|].
  intros i v Hv; destruct (Hn i v Hv) as [n [Hf Hi]].
  exists n; split; [exact Hf|]; rewrite nth_error_map, Hi; reflexivity.
Qed.

Lemma route_osmids_per_node_witness :
  exists ids, osmids (mk_route_geom [(0, 0); (3, 0)]%Z "['10', '20']"%string 3%R)
                = py_str_list ids /\ length ids = 2 /\
    forall i v, nth_error [1; 2] i = Some v ->
      exists n, find_node g_segment v = Some n /\ nth_error ids i = Some (osmid n).
Proof.
  apply (route_osmids_per_node g_segment [1; 2]).
  unfold build_route; cbn -[line_length]; f_equal; f_equal.
  exact line_length_axis.
Defined.

(** C3 (counterexample): on the route [[1; 2]] the only edge weighs 5 under
    the key [length] and 1 under any other key, while [length_m] is 3, the
    distance between the two node coordinates. *)
Lemma route_length_not_edge_sum :
  exists rg, build_route g_segment [1; 2] = Some rg /\ length_m rg = 3%R /\
    forall key w, path_weight g_segment key [1; 2] = Some w -> length_m rg <> INR w.
Proof.
  exists (mk_route_geom [(0, 0); (3, 0)]%Z "['10', '20']"%string (line_length [(0, 0); (3, 0)]%Z)).
  split; [reflexivity|]; cbn [length_m]; rewrite line_length_axis; split; [reflexivity|].
  intros key w Hw E.
  assert (Hw' : w = 5 \/ w = 1).
  { cbn in Hw; destruct (String.eqb key "length"); inversion Hw; auto. }
  rewrite INR_IZR_INZ in E; apply eq_IZR in E; lia.
Qed.

Lemma nodes_loc_same_coords (g g' : graph) : forall r ns,
  nodes_loc g r = Some ns ->
  (forall v, In v r -> option_map coord (find_node g' v) = option_map coord (find_node g v)) ->
  exists ns', nodes_loc g' r = Some ns' /\ map coord ns' = map coord ns.
Proof.
  induction r as [|v r IH]; intros ns H Hc; simpl in H.
  - inversion H; exists []; auto.
  - destruct (find_node g v) as [n|] eqn:Ev; [|discriminate].
    destruct (nodes_loc g r) as [ns0|]; [|discriminate].
    inversion H; subst ns.
    destruct (IH ns0 eq_refl) as [ns' [E' Hm]]; [intros; apply Hc; right; assumption|].
    specialize (Hc v (or_introl eq_refl)); rewrite Ev in Hc.
    destruct (find_node g' v) as [n'|] eqn:Ev'; [|discriminate].
    cbn [option_map] in Hc; assert (Hcn : coord n' = coord n) by congruence.
    exists (n' :: ns'); simpl; rewrite Ev', E'; split; [reflexivity|].
    rewrite Hcn, Hm; reflexivity.
Qed.

(** C3 (amended): [length_m] is the length of the line through the route
    nodes' coordinates (the sum of the straight-line distances between
    consecutive nodes); the edges and their weights play no part: any graph
    with the same coordinates for these nodes gives the same [length_m]. *)
Theorem route_length_is_line_length (g : graph) (r : list nat) (rg : route_geom) :
  build_route g r = Some rg ->
  length_m rg = line_length (geometry rg) /\
  (forall i v, nth_error r i = Some v ->
     exists n, find_node g v = Some n /\ nth_error (geometry rg) i = Some (coord n)) /\
  forall g', (forall v, In v r -> option_map coord (find_node g' v) = option_map coord (find_node g v)) ->
    exists rg', build_route g' r = Some rg' /\ length_m rg' = length_m rg.
Proof.
  intros H.
  pose proof (route_line_nth g r _ (build_route_line g r rg H)) as [_ Hnth].
  unfold build_route in H |- *.
  destruct (nodes_loc g r) as [ns|] eqn:E; [|discriminate].
  destruct (LineString (map coord ns)) as [l|] eqn:El; inversion H; subst rg.
  split; [reflexivity|]; split; [exact Hnth|].
  intros g' Hc.
  destruct (nodes_loc_same_coords g g' r ns E Hc) as [ns' [E' Hm]].
  rewrite E', Hm, El; eexists; split; reflexivity.
Qed.

Lemma route_length_is_line_length_witness :
  exists rg, build_route g_segment [1; 2] = Some rg /\
  length_m rg = line_length (geometry rg) /\
  (forall i v, nth_error [1; 2] i = Some v ->
     exists n, find_node g_segment v = Some n /\ nth_error (geometry rg) i = Some (coord n)) /\
  forall g', (forall v, In v [1; 2] ->
                option_map coord (find_node g' v) = option_map coord (find_node g_segment v)) ->
    exists rg', build_route g' [1; 2] = Some rg' /\ length_m rg' = length_m rg.
Proof.
  eexists; split; [reflexivity|].
  apply (route_length_is_line_length g_segment [1; 2]); reflexivity.
Defined.

(** ** Nearest node *)

Lemma idxmin_spec : forall l i d,
  exists pre e post, (i, d) :: l = pre ++ (idxmin (i, d) l, e) :: post /\
    (forall q, In q ((i, d) :: l) -> (e <= snd q)%Z) /\
    (forall q, In q pre -> (e < snd q)%Z).
Proof.
  induction l as [|[j e0] t IH]; intros i d.
  - exists [], d, []; simpl; split; [reflexivity|split]; [intros q [<-|[]]; simpl; lia|intros ? []].
  - cbn [idxmin snd]; destruct (Z.ltb_spec e0 d) as [Hlt|Hge].
    + destruct (IH j e0) as [pre [e [post [Heq [Hmin Hpre]]]]].
      assert (He : (e <= e0)%Z) by (apply (Hmin (j, e0)); left; reflexivity).
      exists ((i, d) :: pre), e, post; split; [rewrite Heq; reflexivity|split].
      * intros q [<-|Hq]; [simpl; lia|auto].
      * intros q [<-|Hq]; [simpl; lia|auto].
    + destruct (IH i d) as [pre [e [post [Heq [Hmin Hpre]]]]].
      set (r := idxmin (i, d) t) in *; clearbody r.
      destruct pre as [|q0 pre].
      * injection Heq as Hi Hd Ht; rewrite <- Hi; subst e.
        exists [], d, ((j, e0) :: t); split; [reflexivity|split].
        -- intros q [<-|[<-|Hq]]; simpl; [lia|lia|].
           apply (Hmin q); right; exact Hq.
        -- intros ? [].
      * injection Heq as Hq0 Ht; subst q0 t.
        assert (Hed : (e < d)%Z) by (apply (Hpre (i, d)); left; reflexivity).
        exists ((i, d) :: (j, e0) :: pre), e, post; split; [reflexivity|split].
        -- intros q [<-|[<-|Hq]]; simpl; [lia|lia|].
           apply Hmin; right; exact Hq.
        -- intros q [<-|[<-|Hq]]; simpl; [lia|lia|].
           apply Hpre; right; exact Hq.
Qed.

Lemma nearest_spec (g : graph) (px py : Z) (r : nat) :
  get_nearest_node g (py, px) = Some r ->
  exists pre n post, g = pre ++ n :: post /\ nid n = r /\
    (forall m, In m g -> (sq_dist px py n <= sq_dist px py m)%Z) /\
    (forall m, In m pre -> (sq_dist px py n < sq_dist px py m)%Z).
Proof.
  unfold get_nearest_node.
  set (f := fun n => (nid n, sq_dist px py n)).
  destruct (map f g) as [|[i d] l] eqn:Em; intros H; [discriminate|].
  inversion H as [Hr].
  destruct (idxmin_spec l i d) as [pre [e [post [Heq [Hmin Hpre]]]]].
  rewrite Hr, <- Em in Heq.
  apply map_eq_app in Heq as [g1 [g2 [-> [E1 E2]]]].
  apply map_eq_cons in E2 as [n [g3 [-> [Ef _]]]].
  unfold f in Ef; inversion Ef; subst.
  exists g1, n, g3; split; [reflexivity|]; split; [assumption|]; split.
  - intros m Hm.
    apply (Hmin (f m)); rewrite <- Em; apply in_map; exact Hm.
  - intros m Hm; apply (Hpre (f m)); apply in_map; exact Hm.
Qed.

Lemma sq_dist_nonneg (px py : Z) (n : node) : (0 <= sq_dist px py n)%Z.
Proof. unfold sq_dist; nia. Qed.

Lemma sq_dist_zero (px py : Z) (n : node) :
  sq_dist px py n = 0%Z <-> coord n = (px, py).
Proof.
  unfold sq_dist, coord; split.
  - intros H; assert (px - x n = 0 /\ py - y n = 0)%Z as [H1 H2] by nia.
    f_equal; lia.
  - intros H; inversion H; subst; rewrite !Z.sub_diag; reflexivity.
Qed.



(** ** The target node of the script *)

Lemma fold_max_upper (t : list node) (a : Z) :
  (a <= fold_left (fun m n' => Z.max m (x n')) t a)%Z /\
  forall m, In m t -> (x m <= fold_left (fun m n' => Z.max m (x n')) t a)%Z.
Proof.
  revert a; induction t as [|h t IH]; intros a; simpl.
  - split; [lia | intros m []].
  - destruct (IH (Z.max a (x h))) as [H1 H2]; split; [lia|].
    intros m [<-|Hm]; [lia | auto].
Qed.

Lemma fold_max_attained (t : list node) (a : Z) :
  fold_left (fun m n' => Z.max m (x n')) t a = a \/
  exists m, In m t /\ x m = fold_left (fun m n' => Z.max m (x n')) t a.
Proof.
  revert a; induction t as [|h t IH]; intros a; simpl; [left; reflexivity|].
  destruct (IH (Z.max a (x h))) as [E|[m [Hm E]]].
  - rewrite E; destruct (Z.max_spec a (x h)) as [[_ ->]|[_ ->]].
    + right; exists h; split; [left|]; reflexivity.
    + left; reflexivity.
  - right; exists m; split; [right|]; assumption.
Qed.

Lemma maxx_spec (g : graph) (n0 : node) :
  In n0 g ->
  exists mx, maxx g = Some mx /\ (forall m, In m g -> (x m <= mx)%Z) /\
    exists m, In m g /\ x m = mx.
Proof.
  destruct g as [|h t]; [intros []|intros _].
  simpl; eexists; split; [reflexivity|].
  destruct (fold_max_upper t (x h)) as [H1 H2]; split.
  - intros m [<-|Hm]; [exact H1 | auto].
  - destruct (fold_max_attained t (x h)) as [E|[m [Hm E]]].
    + exists h; split; [left; reflexivity | symmetry; exact E].
    + exists m; split; [right|]; assumption.
Qed.

Lemma get_nearest_node_some (g : graph) (p : Z * Z) :
  g <> [] -> exists r, get_nearest_node g p = Some r.
Proof.
  destruct p as [py px]; destruct g as [|h t]; [congruence|intros _].
  simpl; eexists; reflexivity.
Qed.

(** Claim C10: when the graph has a node, the target location is non-empty;
    its first node [n] has the greatest x-coordinate of all nodes, and the
    nearest-node lookup at the coordinate of [n] returns the identifier of
    [n] itself (a node with the same coordinate further down the node order
    loses the tie, one earlier would have been chosen as the target). *)
Theorem target_node_max_x (g : graph) :
  g <> [] ->
  exists n rest, target_loc g = n :: rest /\ In n g /\
    (forall m, In m g -> (x m <= x n)%Z) /\
    target_point g = Some (coord n) /\ target_node g = Some (nid n).
Proof.
  intros Hg.
  destruct g as [|h0 t0] eqn:Eg; [congruence|rewrite <- Eg in *].
  assert (Hh0 : In h0 g) by (rewrite Eg; left; reflexivity).
  destruct (maxx_spec g h0 Hh0) as [mx [Emx [Hup [m0 [Hm0 Hx0]]]]].
  unfold target_node, target_point, target_loc; rewrite Emx.
  assert (Hin : In m0 (filter (fun n => (x n =? mx)%Z) g))
    by (apply filter_In; split; [exact Hm0 | apply Z.eqb_eq; exact Hx0]).
  destruct (filter (fun n => (x n =? mx)%Z) g) as [|n rest] eqn:Ef; [destruct Hin|].
  assert (Hn : In n g /\ x n = mx).
  { assert (In n (filter (fun n => (x n =? mx)%Z) g)) as Hf by (rewrite Ef; left; reflexivity).
    apply filter_In in Hf as [Hf1 Hf2]; apply Z.eqb_eq in Hf2; split; assumption. }
  destruct Hn as [Hn Hxn].
  exists n, rest; split; [reflexivity|]; split; [exact Hn|].
  split; [intros m Hm; rewrite Hxn; apply Hup; exact Hm|].
  split; [reflexivity|].
  unfold coord at 1.
  destruct (get_nearest_node_some g (y n, x n) Hg) as [r Er]; rewrite Er.
  destruct (nearest_spec g (x n) (y n) r Er) as [pre [n' [post [Hs [Hid [Hmin Hpre]]]]]].
  assert (Hz : sq_dist (x n) (y n) n = 0%Z) by (apply sq_dist_zero; reflexivity).
  assert (Hz' : sq_dist (x n) (y n) n' = 0%Z)
    by (pose proof (Hmin n Hn); pose proof (sq_dist_nonneg (x n) (y n) n'); lia).
  apply sq_dist_zero in Hz'; unfold coord in Hz'; inversion Hz' as [[Hx' Hy']].
  rewrite Hs, filter_app in Ef; simpl in Ef.
  rewrite Hx', Hxn, Z.eqb_refl in Ef.
  destruct (filter (fun n => (x n =? mx)%Z) pre) as [|p fp] eqn:Ep.
  - simpl in Ef; inversion Ef; subst; reflexivity.
  - assert (Hp : In p pre).
    { assert (In p (filter (fun n => (x n =? mx)%Z) pre)) as Hf by (rewrite Ep; left; reflexivity).
      apply filter_In in Hf as [Hf _]; exact Hf. }
    simpl in Ef; inversion Ef; subst p.
    specialize (Hpre n Hp); pose proof (sq_dist_nonneg (x n) (y n) n'); lia.
Qed.

Lemma target_node_max_x_witness :
  g_square <> [] /\
  exists n rest, target_loc g_square = n :: rest /\ In n g_square /\
    (forall m, In m g_square -> (x m <= x n)%Z) /\
    target_point g_square = Some (coord n) /\ target_node g_square = Some (nid n).
Proof.
  split; [discriminate|].
  apply (target_node_max_x g_square); discriminate.
Defined.

(** * Further properties of the code *)

(** ** The search: failures, distances and simple paths *)

Lemma last_error_In (p : list nat) (v : nat) : last_error p = Some v -> In v p.
Proof.
  induction p as [|a [|b p] IH]; intros H; [discriminate| |].
  - inversion H; left; reflexivity.
  - right; apply IH; exact H.
Qed.

(** From a node of a well-formed graph the search fails only with
    [NetworkXNoPath]: it never reports contradictory paths, a key error or
    a run-away loop. *)
Theorem shortest_path_errors (g : graph) (key : string) (s t : nat) (e : nx_error) :
  wf_graphb g = true -> has_node g s = true ->
  shortest_path g s t key = Err e -> e = NetworkXNoPath.
Proof.
  intros Hwf Hs H.
  destruct (Nat.eqb_spec s t) as [<-|Hst].
  { unfold shortest_path, single_source_dijkstra in H; rewrite Nat.eqb_refl in H.
    discriminate. }
  destruct (shortest_path_spec g key s t Hwf Hs Hst) as [[p [d [E _]]]|[E _]];
    rewrite E in H; inversion H; reflexivity.
Qed.

Lemma shortest_path_errors_witness :
  wf_graphb g_two_parts = true /\ has_node g_two_parts 1 = true /\
  shortest_path g_two_parts 1 3 "distance" = Err NetworkXNoPath /\
  NetworkXNoPath = NetworkXNoPath.
Proof.
  split; [vm_compute; reflexivity|]; split; [reflexivity|]; split; [vm_compute; reflexivity|].
  apply (shortest_path_errors g_two_parts "distance" 1 3); vm_compute; reflexivity.
Defined.

(** A target that is not a node of the graph is reported as unreachable
    ([NetworkXNoPath]), not as [NodeNotFound], when the source is a node. *)
Theorem shortest_path_unknown_target (g : graph) (key : string) (s t : nat) :
  wf_graphb g = true -> has_node g s = true -> has_node g t = false ->
  shortest_path g s t key = Err NetworkXNoPath.
Proof.
  intros Hwf Hs Ht.
  assert (Hst : s <> t) by (intros ->; congruence).
  destruct (shortest_path_spec g key s t Hwf Hs Hst) as [[p [d [_ [Hp _]]]]|[E _]];
    [|exact E].
  exfalso.
  destruct Hp as [Hh [Hl Hw]].
  pose proof (path_nodes_in_graph g key Hwf p s d Hh Hw
                (last_error_length p s t Hh Hl Hst) t (last_error_In p t Hl)).
  congruence.
Qed.

Lemma shortest_path_unknown_target_witness :
  wf_graphb g_square = true /\ has_node g_square 1 = true /\
  has_node g_square 9 = false /\
  shortest_path g_square 1 9 "distance" = Err NetworkXNoPath.
Proof.
  split; [vm_compute; reflexivity|]; split; [reflexivity|]; split; [reflexivity|].
  apply shortest_path_unknown_target; vm_compute; reflexivity.
Defined.

(** [single_source_dijkstra] reports the distance [d] together with a path
    whose cumulative weight is exactly [d], and no path is lighter. *)
Theorem single_source_dijkstra_dist (g : graph) (key : string) (s t : nat)
        (d : nat) (p : list nat) :
  wf_graphb g = true -> single_source_dijkstra g s t key = Ok (d, p) ->
  is_path g key s t p d /\ forall q w, is_path g key s t q w -> d <= w.
Proof.
  intros Hwf H; unfold single_source_dijkstra in H.
  destruct (Nat.eqb_spec s t) as [<-|Hst].
  { inversion H; subst; split; [apply is_path_refl|intros; lia]. }
  destruct (has_node g s); [|discriminate]; cbn [negb] in H.
  destruct (loop_spec g key s t Hwf (loop_fuel g) (init_state s) (dinv_init g key s t Hst))
    as [st [Hl [Hf1 _]]].
  { unfold pot, loop_fuel; cbn [init_state fringe dist length]; rewrite unsettled_nil; lia. }
  rewrite Hl in H.
  destruct (lookup t (dist st)) as [d'|] eqn:Ht; [|discriminate].
  destruct (Hf1 d' eq_refl) as [p' [Hp' [Hpath Hopt]]].
  rewrite Hp' in H; inversion H; subst; auto.
Qed.

Lemma single_source_dijkstra_dist_witness :
  wf_graphb g_square = true /\ single_source_dijkstra g_square 1 3 "distance" = Ok (12, [1; 3]) /\
  is_path g_square "distance" 1 3 [1; 3] 12 /\
  forall q w, is_path g_square "distance" 1 3 q w -> 12 <= w.
Proof.
  split; [vm_compute; reflexivity|]; split; [vm_compute; reflexivity|].
  apply single_source_dijkstra_dist; vm_compute; reflexivity.
Defined.

(** Simple paths: every path recorded in [paths] has no repeated node and
    ends with its node, whose predecessors on it are all settled. *)
Definition paths_ok (st : dstate) : Prop :=
  forall w p, lookup w (paths st) = Some p ->
  NoDup p /\ exists q, p = q ++ [w] /\ forall z, In z q -> lookup z (dist st) <> None.

Lemma relax_paths_ok (key : string) (dv : nat) (pv : list nat) :
  forall es st st',
  paths_ok st -> NoDup pv -> (forall z, In z pv -> lookup z (dist st) <> None) ->
  relax key dv pv es st = Ok st' -> paths_ok st' /\ dist st' = dist st.
Proof.
  induction es as [|[u grp] es IH]; intros st st' Hok Hnd Hpv Hr.
  { inversion Hr; subst; auto. }
  (* pushing [u], which is not settled *)
  assert (Hpush : lookup u (dist st) = None ->
                  relax key dv pv es (push_node u (dv + weight_fn key grp) pv st) = Ok st' ->
                  paths_ok st' /\ dist st' = dist st).
  { intros Hu Hr'.
    apply (IH _ st') in Hr' as [Hok' Hd']; [split; [exact Hok'|exact Hd']| |exact Hnd|exact Hpv].
    intros w p Hw; unfold push_node in Hw |- *; cbn [paths dist lookup] in Hw |- *.
    destruct (Nat.eqb_spec w u) as [->|]; [|exact (Hok w p Hw)].
    inversion Hw; subst p; split.
    - apply NoDup_app; [exact Hnd|constructor; [intros []|constructor]|].
      intros z Hz [Heq|[]]; subst z; exact (Hpv u Hz Hu).
    - exists pv; split; [reflexivity|exact Hpv]. }
  cbn [relax] in Hr.
  destruct (lookup u (dist st)) as [ud|] eqn:Hud.
  - destruct (dv + weight_fn key grp <? ud); [discriminate|].
    exact (IH st st' Hok Hnd Hpv Hr).
  - destruct (lookup u (seen st)) as [su|].
    + destruct (dv + weight_fn key grp <? su); [exact (Hpush eq_refl Hr)|].
      exact (IH st st' Hok Hnd Hpv Hr).
    + exact (Hpush eq_refl Hr).
Qed.

Lemma loop_paths_ok (g : graph) (key : string) (target : nat) :
  forall fuel st st', paths_ok st ->
  dijkstra_loop g key target fuel st = Ok st' -> paths_ok st'.
Proof.
  induction fuel as [|fuel IH]; intros st st' Hok H; [discriminate|].
  cbn [dijkstra_loop] in H.
  destruct (heap_pop (fringe st)) as [[[[d c] v] rest]|]; [|inversion H; subst; exact Hok].
  assert (Hok0 : paths_ok (set_fringe rest st)) by exact Hok.
  destruct (lookup v (dist (set_fringe rest st))) as [dv|] eqn:Hv.
  { exact (IH _ _ Hok0 H). }
  assert (Hok1 : paths_ok (settle v d (set_fringe rest st))).
  { intros w p Hw; destruct (Hok0 w p Hw) as [Hnd [q [Hq Hz]]].
    split; [exact Hnd|exists q; split; [exact Hq|]].
    intros z Hin; unfold settle; cbn [dist lookup].
    destruct (z =? v); [discriminate|exact (Hz z Hin)]. }
  destruct (v =? target); [inversion H; subst; exact Hok1|].
  destruct (lookup v (paths (settle v d (set_fringe rest st)))) as [pv|] eqn:Hpv;
    [|discriminate].
  destruct (relax key d pv (succ_of g v) (settle v d (set_fringe rest st))) as [st2|e] eqn:Hr;
    [|discriminate].
  destruct (Hok1 v pv Hpv) as [Hnd [q [Hq Hz]]].
  apply (relax_paths_ok key d pv _ _ st2 Hok1 Hnd) in Hr as [Hok2 _].
  - exact (IH _ _ Hok2 H).
  - intros z Hin; rewrite Hq in Hin; apply in_app_or in Hin as [Hin|[<-|[]]];
      [exact (Hz z Hin)|].
    unfold settle; cbn [dist lookup]; rewrite Nat.eqb_refl; discriminate.
Qed.

(** The route returned by the search never visits a node twice. *)
Theorem shortest_path_NoDup (g : graph) (key : string) (s t : nat) (p : list nat) :
  shortest_path g s t key = Ok p -> NoDup p.
Proof.
  unfold shortest_path, single_source_dijkstra.
  destruct (s =? t).
  { intros H; inversion H; subst; constructor; [intros []|constructor]. }
  destruct (negb (has_node g s)); [discriminate|].
  destruct (dijkstra_loop g key t (loop_fuel g) (init_state s)) as [st|e] eqn:Hl;
    [|discriminate].
  assert (Hok : paths_ok st).
  { apply (loop_paths_ok g key t (loop_fuel g) (init_state s)); [|exact Hl].
    intros w q Hw; cbn [init_state paths lookup] in Hw.
    destruct (Nat.eqb_spec w s) as [->|]; [|discriminate].
    inversion Hw; subst; split; [constructor; [intros []|constructor]|].
    exists []; split; [reflexivity|intros z []]. }
  destruct (lookup t (dist st)); [|discriminate].
  destruct (lookup t (paths st)) as [q|] eqn:Hq; [|discriminate].
  intros H; inversion H; subst; exact (proj1 (Hok t p Hq)).
Qed.

Lemma shortest_path_NoDup_witness :
  shortest_path g_square 2 4 "distance" = Ok [2; 1; 4] /\ NoDup [2; 1; 4].
Proof.
  split; [vm_compute; reflexivity|].
  apply (shortest_path_NoDup g_square "distance" 2 4); vm_compute; reflexivity.
Defined.

(** ** The nearest-node lookup *)

(** The lookup answers for every point exactly when the graph has a node,
    and its answer is a node of the graph, so [nodes_proj.loc[orig_node]]
    finds a row. *)
Theorem get_nearest_node_is_node (g : graph) (p : Z * Z) :
  (get_nearest_node g p = None <-> g = []) /\
  forall r, get_nearest_node g p = Some r -> exists n, find_node g r = Some n /\ In n g.
Proof.
  destruct p as [py px]; split.
  - destruct g as [|n t]; simpl; split; intros H; try reflexivity; discriminate.
  - intros r H.
    destruct (nearest_spec g px py r H) as [pre [n [post [Hg [Hid _]]]]].
    assert (Hin : In n g) by (rewrite Hg; apply in_or_app; right; left; reflexivity).
    assert (Hh : has_node g r = true)
      by (apply existsb_exists; exists n; split; [exact Hin|apply Nat.eqb_eq; exact Hid]).
    apply has_node_find in Hh as [m Hm]; exists m; split; [exact Hm|].
    exact (proj1 (find_node_In g r m Hm)).
Qed.

(** ** The target location *)

(** [target_loc] holds exactly the nodes of greatest x-coordinate, and is
    empty only for an empty graph. *)
Theorem target_loc_spec (g : graph) :
  (forall n, In n (target_loc g) <-> In n g /\ forall m, In m g -> (x m <= x n)%Z) /\
  (target_loc g = [] <-> g = []).
Proof.
  destruct g as [|h t] eqn:Eg.
  { split; [intros n; simpl; split; [intros []|intros [[] _]]|].
    split; reflexivity. }
  rewrite <- Eg.
  assert (Hh : In h g) by (rewrite Eg; left; reflexivity).
  destruct (maxx_spec g h Hh) as [mx [Emx [Hup [m0 [Hm0 Hx0]]]]].
  unfold target_loc; rewrite Emx.
  split.
  - intros n; rewrite filter_In, Z.eqb_eq; split.
    + intros [Hn Hx]; split; [exact Hn|intros m Hm; rewrite Hx; auto].
    + intros [Hn Hm]; split; [exact Hn|].
      pose proof (Hup n Hn); pose proof (Hm m0 Hm0); lia.
  - split; [|intros E; rewrite Eg in E; discriminate].
    intros E.
    assert (Hin : In m0 (filter (fun n => (x n =? mx)%Z) g))
      by (apply filter_In; split; [exact Hm0|apply Z.eqb_eq; exact Hx0]).
    rewrite E in Hin; destruct Hin.
Qed.

(** ** The route geometry *)

Lemma nodes_loc_none (g : graph) : forall r,
  nodes_loc g r = None -> exists v, In v r /\ has_node g v = false.
Proof.
  induction r as [|v r IH]; simpl; [discriminate|].
  destruct (find_node g v) as [n|] eqn:Ev.
  - destruct (nodes_loc g r) as [ns|]; [discriminate|].
    intros _; destruct (IH eq_refl) as [u [Hu Hn]]; exists u; split; [right|]; assumption.
  - intros _; exists v; split; [left; reflexivity|].
    destruct (has_node g v) eqn:Hv; [|reflexivity].
    apply has_node_find in Hv as [n Hn]; congruence.
Qed.

Lemma nodes_loc_In (g : graph) : forall r ns v,
  nodes_loc g r = Some ns -> In v r -> has_node g v = true.
Proof.
  induction r as [|u r IH]; intros ns v H Hv; [destruct Hv|]; simpl in H.
  destruct (find_node g u) as [n|] eqn:Eu; [|discriminate].
  destruct (nodes_loc g r) as [ns'|] eqn:E; [|discriminate].
  destruct Hv as [<-|Hv]; [apply has_node_find; exists n; exact Eu|].
  exact (IH ns' v eq_refl Hv).
Qed.

(** A route gives no geometry exactly when it has a single node or some
    node of it is not a node of the graph; the empty route is accepted
    (shapely's empty line). *)
Theorem build_route_none (g : graph) (r : list nat) :
  build_route g r = None <->
  length r = 1 \/ exists v, In v r /\ has_node g v = false.
Proof.
  unfold build_route; split.
  - destruct (nodes_loc g r) as [ns|] eqn:E.
    + pose proof (proj1 (nodes_loc_spec g r ns E)) as Hl.
      rewrite <- (length_map coord) in Hl.
      unfold LineString; destruct (map coord ns) as [|c0 [|c1 cs]]; intros H;
        try discriminate; left; rewrite <- Hl; reflexivity.
    + intros _; right; exact (nodes_loc_none g r E).
  - intros [Hl|[v [Hv Hn]]]; destruct (nodes_loc g r) as [ns|] eqn:E; try reflexivity.
    + pose proof (proj1 (nodes_loc_spec g r ns E)) as Hl'.
      rewrite <- (length_map coord) in Hl'; rewrite Hl in Hl'.
      unfold LineString; destruct (map coord ns) as [|c0 [|c1 cs]];
        cbn [length] in Hl'; [discriminate|reflexivity|discriminate].
    + rewrite (nodes_loc_In g r ns v E Hv) in Hn; discriminate.
Qed.

(** ** The [osmids] string *)

Lemma str_app_assoc (a b c : string) : ((a ++ b) ++ c = a ++ (b ++ c))%string.
Proof. induction a as [|ch a IH]; simpl; [reflexivity|rewrite IH; reflexivity]. Qed.

Lemma str_app_nil (a : string) : (a ++ "")%string = a.
Proof. induction a as [|ch a IH]; simpl; [reflexivity|rewrite IH; reflexivity]. Qed.

Lemma digits_app : forall fuel n acc,
  digits fuel n acc = (digits fuel n "" ++ acc)%string.
Proof.
  induction fuel as [|fuel IH]; intros n acc; [reflexivity|].
  cbn [digits]; destruct (n <? 10); [reflexivity|].
  rewrite (IH _ (String _ acc)), (IH _ (String _ "")), str_app_assoc; reflexivity.
Qed.

(** Reading a string of decimal digits, most significant first. *)
Fixpoint dval (str : string) (a : nat) : nat :=
  match str with
  | EmptyString => a
  | String c rest => dval rest (a * 10 + (nat_of_ascii c - 48))
  end.

Lemma dval_app (s1 s2 : string) (a : nat) : dval (s1 ++ s2) a = dval s2 (dval s1 a).
Proof. revert a; induction s1 as [|c s1 IH]; intros a; simpl; auto. Qed.

Lemma digit_value (n : nat) : nat_of_ascii (ascii_of_nat (48 + n mod 10)) - 48 = n mod 10.
Proof.
  rewrite nat_ascii_embedding; [lia|].
  pose proof (Nat.mod_upper_bound n 10); lia.
Qed.

Lemma dval_digits : forall fuel n, n < fuel -> dval (digits fuel n "") 0 = n.
Proof.
  induction fuel as [|fuel IH]; intros n Hn; [lia|].
  cbn [digits]; destruct (Nat.ltb_spec n 10).
  - cbn [dval]; rewrite digit_value, Nat.mod_small; lia.
  - assert (n / 10 < n) by (apply Nat.div_lt; lia).
    rewrite digits_app, dval_app, IH by lia; cbn [dval]; rewrite digit_value.
    pose proof (Nat.div_mod_eq n 10); lia.
Qed.

Lemma string_of_nat_inj (n m : nat) : string_of_nat n = string_of_nat m -> n = m.
Proof.
  intros H; unfold string_of_nat in H.
  rewrite <- (dval_digits (S n) n), <- (dval_digits (S m) m) by lia.
  rewrite H; reflexivity.
Qed.

Lemma string_of_nat_cons (n : nat) :
  exists c rest, string_of_nat n = String c rest /\ 48 <= nat_of_ascii c <= 57.
Proof.
  pose proof (string_of_nat_digits n) as Hd.
  destruct (string_of_nat n) as [|c rest] eqn:E.
  - exfalso; unfold string_of_nat in E; cbn [digits] in E.
    destruct (n <? 10); [discriminate|].
    rewrite digits_app in E; destruct (digits n (n / 10) ""); discriminate.
  - exists c, rest; split; [reflexivity|exact (proj1 Hd)].
Qed.

Definition nondigit_start (str : string) : Prop :=
  match str with
  | EmptyString => True
  | String c _ => ~ (48 <= nat_of_ascii c <= 57)
  end.

Lemma digits_prefix : forall a b r1 r2,
  all_digits a -> all_digits b -> nondigit_start r1 -> nondigit_start r2 ->
  (a ++ r1 = b ++ r2)%string -> a = b /\ r1 = r2.
Proof.
  induction a as [|c a IH]; intros [|c' b] r1 r2 Ha Hb H1 H2 E; simpl in E.
  - split; [reflexivity|exact E].
  - subst r1; simpl in H1; destruct Hb as [Hc _]; contradiction.
  - subst r2; simpl in H2; destruct Ha as [Hc _]; contradiction.
  - inversion E as [[Ec E']]; subst c'.
    destruct (IH b r1 r2 (proj2 Ha) (proj2 Hb) H1 H2 E') as [-> ->]; auto.
Qed.

Definition list_tail (l : list nat) : string :=
  (String.concat ", " (map (fun n => py_repr_str (string_of_nat n)) l) ++ "]")%string.

Definition list_rest (t : list nat) : string :=
  match t with
  | [] => "]"
  | _ => (", " ++ list_tail t)%string
  end.

Lemma list_tail_cons (n : nat) (t : list nat) :
  list_tail (n :: t) = ("'" ++ string_of_nat n ++ "'" ++ list_rest t)%string.
Proof.
  destruct t as [|m t].
  - unfold list_tail, list_rest, py_repr_str; cbn [map String.concat]; simpl;
      rewrite str_app_assoc; reflexivity.
  - unfold list_rest.
    assert (C : list_tail (n :: m :: t) =
                (py_repr_str (string_of_nat n) ++ ", " ++ list_tail (m :: t))%string).
    { unfold list_tail.
      change (map (fun n => py_repr_str (string_of_nat n)) (n :: m :: t))
        with (py_repr_str (string_of_nat n) :: map (fun n => py_repr_str (string_of_nat n)) (m :: t)).
      change (map (fun n => py_repr_str (string_of_nat n)) (m :: t))
        with (py_repr_str (string_of_nat m) :: map (fun n => py_repr_str (string_of_nat n)) t).
      cbn [String.concat]; rewrite !str_app_assoc; reflexivity. }
    rewrite C; unfold py_repr_str; rewrite !str_app_assoc; reflexivity.
Qed.

Lemma quote_nondigit (r : string) : nondigit_start ("'" ++ r)%string.
Proof.
  simpl; assert (E : nat_of_ascii "'" = 39) by reflexivity; rewrite E; lia.
Qed.

Lemma list_tail_inj : forall l1 l2, list_tail l1 = list_tail l2 -> l1 = l2.
Proof.
  induction l1 as [|n t1 IH]; intros [|m t2] E.
  - reflexivity.
  - rewrite list_tail_cons in E; simpl in E; discriminate.
  - rewrite list_tail_cons in E; simpl in E; discriminate.
  - rewrite !list_tail_cons in E; simpl in E; inversion E as [E'].
    destruct (digits_prefix _ _ _ _ (string_of_nat_digits n) (string_of_nat_digits m)
                (quote_nondigit (list_rest t1)) (quote_nondigit (list_rest t2)) E')
      as [En Er].
    apply string_of_nat_inj in En; subst m; f_equal.
    simpl in Er; inversion Er as [Er'].
    destruct t1 as [|a t1]; destruct t2 as [|b t2]; simpl in Er';
      try reflexivity; try discriminate.
    inversion Er' as [Er'']; apply IH; exact Er''.
Qed.

(** [str(list(...))] of the osmid strings determines the list of osmids:
    two routes whose node osm ids differ get different [osmids] strings. *)
Theorem py_str_list_inj (l1 l2 : list nat) : py_str_list l1 = py_str_list l2 -> l1 = l2.
Proof.
  unfold py_str_list; intros E; inversion E as [E'].
  apply list_tail_inj; exact E'.
Qed.

Lemma py_str_list_inj_witness :
  py_str_list [10; 20] = "['10', '20']"%string /\ [10; 20] = [10; 20].
Proof.
  split; [vm_compute; reflexivity|].
  apply py_str_list_inj; vm_compute; reflexivity.
Defined.

(** ** The search: every prefix of the returned route is a shortest route *)

(** The path recorded for a node passes through settled nodes only, whose
    recorded paths are its prefixes. *)
Definition prefix_ok (st : dstate) : Prop :=
  forall w p, lookup w (paths st) = Some p ->
  forall i z, nth_error p i = Some z -> S i < length p ->
  lookup z (paths st) = Some (firstn (S i) p) /\ lookup z (dist st) <> None.

Lemma relax_prefix_ok (key : string) (dv : nat) (v : nat) (pv : list nat) :
  forall es st st',
  prefix_ok st -> lookup v (paths st) = Some pv -> lookup v (dist st) <> None ->
  last_error pv = Some v ->
  relax key dv pv es st = Ok st' -> prefix_ok st' /\ lookup v (paths st') = Some pv /\
    dist st' = dist st.
Proof.
  induction es as [|[u grp] es IH]; intros st st' Hok Hpv Hv Hlast Hr.
  { inversion Hr; subst; auto. }
  assert (Hpush : lookup u (dist st) = None ->
                  relax key dv pv es (push_node u (dv + weight_fn key grp) pv st) = Ok st' ->
                  prefix_ok st' /\ lookup v (paths st') = Some pv /\ dist st' = dist st).
  { intros Hu Hr'.
    assert (Huv : v <> u) by (intros ->; contradiction).
    assert (Hlk : forall z, lookup z (dist st) <> None ->
              lookup z (paths (push_node u (dv + weight_fn key grp) pv st)) = lookup z (paths st)).
    { intros z Hz; unfold push_node; cbn [paths lookup].
      destruct (Nat.eqb_spec z u) as [->|]; [contradiction|reflexivity]. }
    apply IH in Hr' as [Hok' [Hpv' Hd']]; [split; [exact Hok'|split; [exact Hpv'|exact Hd']]| | |exact Hv|exact Hlast].
    - intros w p Hw i z Hz Hi.
      unfold push_node in Hw; cbn [paths lookup] in Hw.
      destruct (Nat.eqb_spec w u) as [->|Hwu].
      + inversion Hw; subst p.
        rewrite length_app in Hi; cbn [length] in Hi.
        rewrite nth_error_app1 in Hz by lia.
        rewrite firstn_app, (proj2 (Nat.sub_0_le (S i) (length pv))) by lia.
        rewrite app_nil_r.
        destruct (Nat.eq_dec (S i) (length pv)) as [Ei|Ni].
        * assert (Ez : z = v).
          { apply last_error_nth in Hlast; rewrite <- Ei in Hlast; simpl in Hlast.
            rewrite Nat.sub_0_r in Hlast; congruence. }
          subst z; rewrite Ei, firstn_all, Hlk by exact Hv; split; [exact Hpv|exact Hv].
        * destruct (Hok v pv Hpv i z Hz ltac:(lia)) as [E1 E2].
          rewrite Hlk by exact E2; split; [exact E1|exact E2].
      + destruct (Hok w p Hw i z Hz Hi) as [E1 E2].
        rewrite Hlk by exact E2; split; [exact E1|exact E2].
    - rewrite Hlk by exact Hv; exact Hpv. }
  cbn [relax] in Hr.
  destruct (lookup u (dist st)) as [ud|] eqn:Hud.
  - destruct (dv + weight_fn key grp <? ud); [discriminate|].
    exact (IH st st' Hok Hpv Hv Hlast Hr).
  - destruct (lookup u (seen st)) as [su|].
    + destruct (dv + weight_fn key grp <? su); [exact (Hpush eq_refl Hr)|].
      exact (IH st st' Hok Hpv Hv Hlast Hr).
    + exact (Hpush eq_refl Hr).
Qed.

Lemma loop_prefix_ok (g : graph) (key : string) (target : nat) :
  forall fuel st st', paths_ok st -> prefix_ok st ->
  dijkstra_loop g key target fuel st = Ok st' -> prefix_ok st'.
Proof.
  induction fuel as [|fuel IH]; intros st st' Hpo Hok H; [discriminate|].
  cbn [dijkstra_loop] in H.
  destruct (heap_pop (fringe st)) as [[[[d c] v] rest]|]; [|inversion H; subst; exact Hok].
  destruct (lookup v (dist (set_fringe rest st))) as [dv|] eqn:Hv.
  { exact (IH (set_fringe rest st) _ Hpo Hok H). }
  set (st1 := settle v d (set_fringe rest st)) in *.
  assert (Hpo1 : paths_ok st1).
  { intros w p Hw; destruct (Hpo w p Hw) as [Hnd [q [Hq Hz]]].
    split; [exact Hnd|exists q; split; [exact Hq|]].
    intros z Hin; unfold st1, settle; cbn [dist lookup].
    destruct (z =? v); [discriminate|exact (Hz z Hin)]. }
  assert (Hok1 : prefix_ok st1).
  { intros w p Hw i z Hz Hi; destruct (Hok w p Hw i z Hz Hi) as [E1 E2].
    split; [exact E1|]; unfold st1, settle; cbn [dist lookup].
    destruct (z =? v); [discriminate|exact E2]. }
  destruct (v =? target); [inversion H; subst; exact Hok1|].
  destruct (lookup v (paths st1)) as [pv|] eqn:Hpv; [|discriminate].
  destruct (relax key d pv (succ_of g v) st1) as [st2|e] eqn:Hr; [|discriminate].
  assert (Hv1 : lookup v (dist st1) <> None)
    by (unfold st1, settle; cbn [dist lookup]; rewrite Nat.eqb_refl; discriminate).
  destruct (Hpo1 v pv Hpv) as [Hnd [q [Hq Hz]]].
  assert (Hlast : last_error pv = Some v) by (rewrite Hq; apply last_error_snoc).
  assert (Hpvd : forall z, In z pv -> lookup z (dist st1) <> None).
  { intros z Hin; rewrite Hq in Hin; apply in_app_or in Hin as [Hin|[<-|[]]];
      [exact (Hz z Hin)|exact Hv1]. }
  destruct (relax_paths_ok key d pv _ _ _ Hpo1 Hnd Hpvd Hr) as [Hpo2 _].
  destruct (relax_prefix_ok key d v pv _ _ _ Hok1 Hpv Hv1 Hlast Hr) as [Hok2 _].
  exact (IH _ _ Hpo2 Hok2 H).
Qed.

(** Every node the search settles has an optimal recorded path. *)
Definition settled_ok (g : graph) (key : string) (s : nat) (st : dstate) : Prop :=
  forall v d, lookup v (dist st) = Some d ->
  exists p, lookup v (paths st) = Some p /\ is_path g key s v p d /\
    forall q w, is_path g key s v q w -> d <= w.

Lemma dinv_settled_ok (g : graph) (key : string) (s t : nat) (st : dstate) :
  dinv g key s t st -> settled_ok g key s st.
Proof.
  intros Hinv v d Hd.
  pose proof (di_base _ _ _ _ _ Hinv) as Hri.
  destruct (ri_paths _ _ _ _ Hri v d (ri_dist_seen _ _ _ _ Hri v d Hd)) as [p [Hp Hpath]].
  exists p; split; [exact Hp|split; [exact Hpath|]].
  exact (di_opt _ _ _ _ _ Hinv v d Hd).
Qed.

Lemma loop_settled_ok (g : graph) (key : string) (s t : nat) (Hwf : wf_graphb g = true) :
  forall fuel st st', dinv g key s t st -> pot g st < fuel ->
  dijkstra_loop g key t fuel st = Ok st' -> settled_ok g key s st'.
Proof.
  induction fuel as [|fuel IH]; intros st st' Hinv Hpot H; [lia|].
  cbn [dijkstra_loop] in H.
  destruct (heap_pop (fringe st)) as [[[[d c] v] rest]|] eqn:Hpop.
  2: { inversion H; subst; exact (dinv_settled_ok g key s t st' Hinv). }
  destruct (heap_pop_some _ _ _ Hpop) as [Hperm Hmin].
  unfold set_fringe at 1 in H; cbn [dist] in H.
  destruct (lookup v (dist st)) as [dv|] eqn:Hv.
  - apply (IH (set_fringe rest st)); [| |exact H].
    + eapply dinv_skip; [exact Hinv|exact Hperm|reflexivity|congruence].
    + unfold pot, set_fringe in *; cbn [fringe dist] in *.
      pose proof (Permutation_length Hperm) as Hl; simpl in Hl; lia.
  - destruct (Nat.eqb_spec v t) as [->|Hvt].
    + inversion H; subst st'.
      destruct (popped_facts g key s t st rest d c t Hinv Hperm Hmin Hv) as [Hseen [Hopt _]].
      intros x dx Hx; unfold settle, set_fringe in Hx |- *; cbn [dist paths lookup] in Hx |- *.
      destruct (Nat.eqb_spec x t) as [->|Hxt].
      * inversion Hx; subst dx.
        destruct (ri_paths _ _ _ _ (di_base _ _ _ _ _ Hinv) t d Hseen) as [p [Hp Hpath]].
        exists p; auto.
      * exact (dinv_settled_ok g key s t st Hinv x dx Hx).
    + destruct (dinv_settle g key s t Hwf st rest d c v Hinv Hperm Hmin Hv Hvt)
        as [pv [st2 [Hpv [Hr [Hinv2 Hpot2]]]]].
      rewrite Hpv, Hr in H; apply (IH st2); [exact Hinv2|lia|exact H].
Qed.

(** Optimal substructure: every prefix of the route returned by the search
    is a minimum-weight path from the source to the node it ends at. *)
Theorem shortest_path_prefix_optimal (g : graph) (key : string) (s t : nat) (p : list nat) :
  wf_graphb g = true -> shortest_path g s t key = Ok p ->
  forall i z, nth_error p i = Some z ->
  exists d, is_path g key s z (firstn (S i) p) d /\
    forall q w, is_path g key s z q w -> d <= w.
Proof.
  intros Hwf H i z Hz.
  unfold shortest_path, single_source_dijkstra in H.
  destruct (Nat.eqb_spec s t) as [<-|Hst].
  { inversion H; subst p; destruct i as [|i]; [|destruct i; discriminate].
    inversion Hz; subst z; exists 0; split; [apply is_path_refl|intros; lia]. }
  destruct (negb (has_node g s)); [discriminate|].
  destruct (dijkstra_loop g key t (loop_fuel g) (init_state s)) as [st|e] eqn:Hl;
    [|discriminate].
  assert (Hpot : pot g (init_state s) < loop_fuel g)
    by (unfold pot, loop_fuel; cbn [init_state fringe dist length]; rewrite unsettled_nil; lia).
  pose proof (loop_settled_ok g key s t Hwf _ _ _ (dinv_init g key s t Hst) Hpot Hl) as Hset.
  assert (Hpre : prefix_ok st).
  { apply (loop_prefix_ok g key t (loop_fuel g) (init_state s)); [| |exact Hl].
    - intros w q Hw; cbn [init_state paths lookup] in Hw.
      destruct (Nat.eqb_spec w s) as [->|]; [|discriminate].
      inversion Hw; subst; split; [constructor; [intros []|constructor]|].
      exists []; split; [reflexivity|intros z' []].
    - intros w q Hw j z' _ Hj; cbn [init_state paths lookup] in Hw.
      destruct (w =? s); [|discriminate].
      inversion Hw; subst; simpl in Hj; lia. }
  destruct (lookup t (dist st)) as [dt|] eqn:Hdt; [|discriminate].
  destruct (lookup t (paths st)) as [pt|] eqn:Hpt; [|discriminate].
  inversion H; subst pt.
  assert (Hi : i < length p) by (apply nth_error_Some; congruence).
  destruct (Nat.eq_dec (S i) (length p)) as [Ei|Ni].
  - destruct (Hset t dt Hdt) as [p' [Hp' [Hpath Hopt]]].
    rewrite Hpt in Hp'; inversion Hp'; subst p'.
    assert (z = t).
    { destruct Hpath as [_ [Hlast _]].
      apply last_error_nth in Hlast; rewrite <- Ei in Hlast; simpl in Hlast.
      rewrite Nat.sub_0_r in Hlast; congruence. }
    subst z; rewrite Ei, firstn_all; exists dt; auto.
  - destruct (Hpre t p Hpt i z Hz ltac:(lia)) as [E1 E2].
    destruct (lookup z (dist st)) as [dz|] eqn:Hdz; [|contradiction].
    destruct (Hset z dz Hdz) as [p' [Hp' [Hpath Hopt]]].
    rewrite E1 in Hp'; inversion Hp'; subst p'.
    exists dz; auto.
Qed.

Lemma shortest_path_prefix_optimal_witness :
  wf_graphb g_square = true /\ shortest_path g_square 2 4 "distance" = Ok [2; 1; 4] /\
  nth_error [2; 1; 4] 1 = Some 1 /\
  exists d, is_path g_square "distance" 2 1 (firstn 2 [2; 1; 4]) d /\
    forall q w, is_path g_square "distance" 2 1 q w -> d <= w.
Proof.
  split; [vm_compute; reflexivity|]; split; [vm_compute; reflexivity|]; split; [reflexivity|].
  apply (shortest_path_prefix_optimal g_square "distance" 2 4 [2; 1; 4]);
    vm_compute; reflexivity.
Defined.
